(** * pattern-bench: the scenario, oracle, verification and ranking engine

    A shallow embedding of the benchmark harness ([scan_bench] and [main])
    and of the baseline scanner ([simple_pattern_scanner]), with the
    properties of its specification stated over it.

    Conventions.
    - [size_t], [uint32_t] and [uint64_t] values are integers in [Z]; every
      arithmetic operation the source performs on them is followed by the
      reduction modulo the width ([wrap64], [wrap32]).
    - A [byte*] is an address in [Z] (the null pointer is absent, [None],
      where the source tests for it); memory is a total map from addresses
      to byte values, page protection a total map from addresses to flags.
    - The model has two levels. The functions named after the source
      ([reset], [generate], [run_tests], [main_tests], [main]) give the
      effect of the code on the object and on the memory map; they do not
      consult the page protection. The functions with the suffix
      [_checked] are the process: the same effect as long as every load and
      store goes to a page mapped read-write, and [Killed] at the first
      access that does not, since the sources install no handler for the
      trap and [catch (...)] handles C++ exceptions only.
    - [std::vector] and [std::string] are lists updated by index,
      [std::unordered_set<size_t>] is a [gset Z].
    - What the harness takes from the C++ library and from the [mem]
      library is not part of the sources: the random engine and the
      distributions are the interface [StdRandom], the values the operating
      system hands out are the record [platform], [std::sort] is a variable
      constrained by its contract. *)

From Stdlib Require Import ZArith QArith Ascii String.
From stdpp Require Import base numbers option list strings sorting gmap sets.

Local Open Scope Z_scope.

(** ** Machine integers *)

Definition wrap64 (z : Z) : Z := z mod 2 ^ 64.
Definition wrap32 (z : Z) : Z := z mod 2 ^ 32.

(** The conversion [(byte) v] of an integer to an 8-bit value. *)
Definition to_byte (z : Z) : Z := z mod 2 ^ 8.

(** ** Constants of the harness *)

Definition REGION_SIZE : Z := 64 * 1024 * 1024.
Definition TEST_COUNT : nat := 512.
Definition RNG_SEED : Z := 0.

(** ** The platform *)

(** [mem::prot_flags], as far as the harness uses them. *)
Inductive prot_flags : Type := PROT_NONE | PROT_RW.

Global Instance prot_flags_eq_dec : EqDecision prot_flags.
Proof. solve_decision. Defined.

(** What a file presents to [read_file]. *)
Inductive file_status : Type :=
  | NoSuchFile               (* the stream does not open *)
  | ReadFails (length : Z)   (* it opens with this length, [read] fails *)
  | ReadOk (content : list Z).

(** The values a run obtains from outside the program. *)
Record platform : Type := {
  page_size : Z;               (* mem::page_size() *)
  protect_alloc : Z → Z;       (* address mem::protect_alloc returns for a size *)
  random_device : Z;           (* std::random_device{}() *)
  rdtsc : nat → Z;             (* the n-th reading of mem::rdtsc() *)
  byte_buffer_ctor : Z → bool; (* does mem::byte_buffer(length) return? *)
}.

(** ** Random numbers *)

(** [std::minstd_rand0]: [x <- 16807 * x mod (2^31 - 1)], a seed congruent
    to zero replaced by one. *)
Definition minstd_rand0_seed (s : Z) : Z :=
  if bool_decide (s mod 2147483647 = 0) then 1 else s mod 2147483647.

Definition minstd_rand0_next (x : Z) : Z := (16807 * x) mod 2147483647.

(** [std::generate] over a vector of [n] words: successive outputs of the
    engine. *)
Fixpoint minstd_generate (n : nat) (x : Z) : list Z :=
  match n with
  | O => []
  | S n' => let x' := minstd_rand0_next x in x' :: minstd_generate n' x'
  end.

(** The part of [<random>] the harness draws from, over the engine state
    [G] of [std::mt19937]: construction from a [std::seed_seq] over the
    given words, and one draw from each distribution, returning the value
    and the advanced engine. *)
Class StdRandom (G : Type) : Type := {
  mt19937_seed_seq : list Z → G;
  uniform_int_distribution : Z → Z → G → Z * G;
  bernoulli_distribution : Q → G → bool * G;
}.

Section Harness.

Context {G : Type} `{!StdRandom G}.

(** [create_twister]: the seed is passed by reference, the resolved seed
    is returned with the engine. *)
Definition create_twister (pf : platform) (seed : Z) : Z * G :=
  let seed := if bool_decide (seed = 0) then wrap32 (random_device pf) else seed in
  let random_data := minstd_generate 624 (minstd_rand0_seed seed) in
  (seed, mt19937_seed_seq random_data).

(** ** The guarded region *)

(** [scan_bench], together with the memory its pointers refer to. *)
Record scan_bench : Type := {
  raw_data_ : Z;
  raw_size_ : Z;
  full_data_ : Z;
  full_size_ : Z;
  data_ : Z;
  size_ : Z;
  seed_ : Z;
  rng_ : G;
  pattern_ : list Z;
  masks_ : list ascii;
  expected_ : gset Z;
  memory : Z → Z;
  protection : Z → option prot_flags;
}.

(** The object as its default member initialisers leave it. *)
Definition scan_bench_new (pf : platform) (seed : Z) : scan_bench :=
  let '(seed, rng) := create_twister pf seed in
  {| raw_data_ := 0; raw_size_ := 0; full_data_ := 0; full_size_ := 0;
     data_ := 0; size_ := 0; seed_ := seed; rng_ := rng;
     pattern_ := []; masks_ := []; expected_ := ∅;
     memory := λ _, 0; protection := λ _, None |}.

(** [mem::protect_alloc] and [mem::protect_modify] on the protection map. *)
Definition set_protection (prot : Z → option prot_flags) (base len : Z)
    (flags : prot_flags) : Z → option prot_flags :=
  λ a, if bool_decide (base ≤ a < base + len) then Some flags else prot a.

(** [std::memset] and [std::memcpy] into the memory map. *)
Definition memset (m : Z → Z) (dst : Z) (v : Z) (n : Z) : Z → Z :=
  λ a, if bool_decide (dst ≤ a < dst + n) then v else m a.

Definition memcpy (m : Z → Z) (dst : Z) (src : list Z) (n : Z) : Z → Z :=
  λ a, if bool_decide (dst ≤ a < dst + n)
       then default 0 (src !! Z.to_nat (a - dst)) else m a.

Definition store (m : Z → Z) (addr : Z) (v : Z) : Z → Z :=
  λ a, if bool_decide (a = addr) then v else m a.

(** [std::generate_n(full_data_, full_size_, ...)]: one draw per byte. *)
Fixpoint generate_n (n : nat) (dst : Z) (m : Z → Z) (g : G) : (Z → Z) * G :=
  match n with
  | O => (m, g)
  | S n' =>
      let '(v, g) := uniform_int_distribution 0 255 g in
      generate_n n' (dst + 1) (store m dst (to_byte v)) g
  end.

(** [scan_bench::reset] on a content pointer and a size. *)
Definition reset (pf : platform) (reg : scan_bench)
    (region_data : option (list Z)) (region_size : Z) : scan_bench :=
  let page_size := page_size pf in
  let full_size := wrap64 (wrap64 (wrap64 (region_size + page_size) - 1) / page_size * page_size) in
  let raw_size := wrap64 (full_size + wrap64 (page_size * 2)) in
  let raw_data := protect_alloc pf raw_size in
  let prot := set_protection (protection reg) raw_data raw_size PROT_RW in
  let full_data := raw_data + page_size in
  let prot := set_protection prot raw_data page_size PROT_NONE in
  let prot := set_protection prot (raw_data + raw_size - page_size) page_size PROT_NONE in
  let '(m, g) :=
    match region_data with
    | Some region_data =>
        let extra := wrap64 (full_size - region_size) in
        let m := memset (memory reg) full_data 0 extra in
        (memcpy m (full_data + extra) region_data region_size, rng_ reg)
    | None => generate_n (Z.to_nat full_size) full_data (memory reg) (rng_ reg)
    end in
  {| raw_data_ := raw_data; raw_size_ := raw_size;
     full_data_ := full_data; full_size_ := full_size;
     data_ := data_ reg; size_ := size_ reg; seed_ := seed_ reg; rng_ := g;
     pattern_ := pattern_ reg; masks_ := masks_ reg; expected_ := expected_ reg;
     memory := m; protection := prot |}.

(** [scan_bench::reset] on a size alone. *)
Definition reset_size (pf : platform) (reg : scan_bench) (region_size : Z) : scan_bench :=
  reset pf reg None region_size.

(** [read_file]. The length is [tellg()] converted to [size_t], the buffer
    is constructed with it, and a failed [read] resizes the buffer to
    nothing. [None]: the buffer constructor did not return. *)
Definition tellg (f : file_status) : Z :=
  match f with
  | NoSuchFile => -1
  | ReadFails length => length
  | ReadOk content => Z.of_nat (length content)
  end.

Definition read_file (pf : platform) (f : file_status) : option (list Z) :=
  let length := wrap64 (tellg f) in
  if byte_buffer_ctor pf length then
    match f with
    | ReadOk content => Some content
    | _ => Some []
    end
  else None.

(** [data()] of a [mem::byte_buffer]: no storage behind an empty buffer. *)
Definition byte_buffer_data (buf : list Z) : option (list Z) :=
  match buf with [] => None | _ => Some buf end.

(** [scan_bench::reset] on a file name. *)
Definition reset_file (pf : platform) (reg : scan_bench) (f : file_status)
    : option scan_bench :=
  region_data ← read_file pf f;
  Some (reset pf reg (byte_buffer_data region_data) (Z.of_nat (length region_data))).

(** ** The oracle *)

(** The two mask characters. *)
Definition is_wildcard (c : ascii) : bool := bool_decide (c = "?"%char).
Definition is_fixed (c : ascii) : bool := bool_decide (c = "x"%char).

(** Does the masked pattern occur at window offset [i]? Position [j] is
    compared when its mask marks it fixed. *)
Definition matches_at (m : Z → Z) (data : Z) (pattern : list Z)
    (masks : list ascii) (i : Z) : bool :=
  forallb (λ j : nat,
      negb (is_fixed (default "?"%char (masks !! j)))
      || bool_decide (m (data + i + Z.of_nat j) = default 0 (pattern !! j)))
    (seq 0 (length masks)).

(** Modelled from the spec: the source of [FindPatternSimple] (declared in
    [pattern_entry.h]) is missing. "For every start offset where the
    pattern could fit, compare each fixed-mask position; collect all
    offsets where all fixed positions match"; the addresses are returned
    in ascending order. *)
Definition FindPatternSimple (m : Z → Z) (data : Z) (length : Z)
    (pattern : list Z) (masks : list ascii) : list Z :=
  let pattern_length := Z.of_nat (List.length masks) in
  (λ i, data + i) <$>
    filter (λ i, matches_at m data pattern masks i = true)
           (seqZ 0 (length - pattern_length + 1)).

(** ** Scenario generation and verification *)

(** [scan_bench::shift_results]: every returned address minus the window
    base, as a [size_t], collected in an unordered set. *)
Definition shift_results (reg : scan_bench) (results : list Z) : gset Z :=
  foldl (λ shifted result, {[ wrap64 (result - data_ reg) ]} ∪ shifted) ∅ results.

(** One pass of the [for] loop that draws the pattern: [n] positions
    remain, [i] is the next one. *)
Fixpoint mask_pass (n : nat) (i : nat) (pattern : list Z) (masks : list ascii)
    (all_masks : bool) (g : G) : list Z * list ascii * bool * G :=
  match n with
  | O => (pattern, masks, all_masks, g)
  | S n' =>
      let '(fixed, g) := bernoulli_distribution 0.9 g in
      if fixed then
        let '(v, g) := uniform_int_distribution 0 255 g in
        mask_pass n' (S i) (<[i := to_byte v]> pattern) (<[i := "x"%char]> masks) false g
      else
        mask_pass n' (S i) (<[i := 0]> pattern) (<[i := "?"%char]> masks) all_masks g
  end.

(** The [do ... while (all_masks)] loop. [fuel] bounds the number of
    passes; [None] when it is used up. *)
Fixpoint mask_loop (fuel : nat) (pattern_length : nat) (pattern : list Z)
    (masks : list ascii) (all_masks : bool) (g : G)
    : option (list Z * list ascii * G) :=
  match fuel with
  | O => None
  | S fuel' =>
      let '(pattern, masks, all_masks, g) :=
        mask_pass pattern_length 0 pattern masks all_masks g in
      if all_masks then mask_loop fuel' pattern_length pattern masks all_masks g
      else Some (pattern, masks, g)
  end.


(** The inner stamping loop: one occurrence written at [offset], [n]
    positions remain, [j] is the next one. *)
Fixpoint stamp (n : nat) (j : nat) (data offset : Z) (pattern : list Z)
    (masks : list ascii) (m : Z → Z) : Z → Z :=
  match n with
  | O => m
  | S n' =>
      let m :=
        if is_wildcard (default "?"%char (masks !! j)) then m
        else store m (data + wrap64 (offset + Z.of_nat j)) (default 0 (pattern !! j)) in
      stamp n' (S j) data offset pattern masks m
  end.

(** The outer stamping loop: [count] occurrences remain. The offsets
    drawn are collected in [offsets], which the source does not keep; they
    are what the specification calls the implant offsets. *)
Fixpoint stamp_all (count : nat) (hi : Z) (data : Z) (pattern : list Z)
    (masks : list ascii) (m : Z → Z) (g : G) (offsets : list Z)
    : (Z → Z) * G * list Z :=
  match count with
  | O => (m, g, offsets)
  | S count' =>
      let '(offset, g) := uniform_int_distribution 0 hi g in
      stamp_all count' hi data pattern masks
        (stamp (length pattern) 0 data offset pattern masks m) g (offsets ++ [offset])
  end.

(** [scan_bench::generate], returning the new object and the implant
    offsets. The stores go to the memory map wherever they fall;
    [generate_checked] is the call in the process, where a store outside
    the pages mapped read-write traps. *)
Definition generate (fuel : nat) (reg : scan_bench) : option (scan_bench * list Z) :=
  let '(variation, g) := uniform_int_distribution 0 100 (rng_ reg) in
  let data := full_data_ reg + variation in
  let size := wrap64 (full_size_ reg - variation) in
  let '(pattern_length, g) := uniform_int_distribution 5 32 g in
  let pattern := resize (Z.to_nat pattern_length) 0 (pattern_ reg) in
  let masks := resize (Z.to_nat pattern_length) "000"%char (masks_ reg) in
  '(pattern, masks, g) ← mask_loop fuel (Z.to_nat pattern_length) pattern masks true g;
  let '(result_count, g) := uniform_int_distribution 2 10 g in
  let hi := wrap64 (size - Z.of_nat (length pattern)) in
  let '(m, g, offsets) :=
    stamp_all (Z.to_nat result_count) hi data pattern masks (memory reg) g [] in
  let reg' :=
    {| raw_data_ := raw_data_ reg; raw_size_ := raw_size_ reg;
       full_data_ := full_data_ reg; full_size_ := full_size_ reg;
       data_ := data; size_ := size; seed_ := seed_ reg; rng_ := g;
       pattern_ := pattern; masks_ := masks; expected_ := expected_ reg;
       memory := m; protection := protection reg |} in
  let expected :=
    shift_results reg' (FindPatternSimple m data size pattern masks) in
  Some ({| raw_data_ := raw_data_ reg'; raw_size_ := raw_size_ reg';
           full_data_ := full_data_ reg'; full_size_ := full_size_ reg';
           data_ := data_ reg'; size_ := size_ reg'; seed_ := seed_ reg';
           rng_ := rng_ reg'; pattern_ := pattern_ reg'; masks_ := masks_ reg';
           expected_ := expected;
           memory := memory reg'; protection := protection reg' |}, offsets).

(** [scan_bench::check_results]: the size test first, then one membership
    test per element of the shifted set; the first miss returns [false]. *)
Definition check_results (reg : scan_bench) (results : list Z) : bool :=
  let shifted := shift_results reg results in
  if bool_decide (size shifted ≠ size (expected_ reg)) then false
  else forallb (λ result, bool_decide (result ∈ expected_ reg)) (elements shifted).

(** ** Scanner plugins *)

(** What a call of a plugin's scan operation yields when control comes
    back to the executor: the addresses it returns, or a C++ exception. A
    call that does not come back, because a load traps, is [Trap] of
    [call_result] below. *)
Inductive scan_outcome : Type :=
  | Returned (results : list Z)
  | Thrown.

(** Modelled from the spec: the declaration of [pattern_scanner] (in
    [pattern_entry.h]) is missing. A plugin has a name, the scan operation
    [main] calls with pattern, mask, window base and window length (it
    reads the window from memory), and the two counters [Failed] and
    [Elapsed], unsigned 64-bit. *)
Record pattern_scanner : Type := {
  GetName : string;
  Scan : list Z → list ascii → (Z → Z) → Z → Z → scan_outcome;
  Failed : Z;
  Elapsed : Z;
}.

Definition set_counters (p : pattern_scanner) (failed elapsed : Z) : pattern_scanner :=
  {| GetName := GetName p; Scan := Scan p; Failed := failed; Elapsed := elapsed |}.

(** [simple_pattern_scanner] of [baseline.cpp]: the two pointers are
    absent until [Init] stores them. *)
Record simple_pattern_scanner : Type := {
  CurrentPattern : option (list Z);
  CurrentMask : option (list ascii);
}.

Definition simple_new : simple_pattern_scanner :=
  {| CurrentPattern := None; CurrentMask := None |}.

Definition simple_GetName : string := "Simple".

Definition simple_Init (self : simple_pattern_scanner) (pattern : list Z)
    (mask : list ascii) : simple_pattern_scanner :=
  {| CurrentPattern := Some pattern; CurrentMask := Some mask |}.

(** [simple_pattern_scanner::Scan]; [None] when a pointer is still null. *)
Definition simple_Scan (self : simple_pattern_scanner) (m : Z → Z)
    (data length : Z) : option (list Z) :=
  pattern ← CurrentPattern self;
  mask ← CurrentMask self;
  Some (FindPatternSimple m data length pattern mask).

(** Modelled from the spec: the four-argument scan operation through which
    [main] reaches a plugin is declared in the missing [pattern_entry.h].
    The plugin interface is "given a pattern/mask and a data window,
    return the set of absolute addresses": the pattern and the mask are
    installed with [Init], then the window is scanned. *)
Definition simple_plugin (self : simple_pattern_scanner) : pattern_scanner :=
  {| GetName := simple_GetName;
     Scan := λ pattern masks m data length,
       match simple_Scan (simple_Init self pattern masks) m data length with
       | Some results => Returned results
       | None => Thrown
       end;
     Failed := 0; Elapsed := 0 |}.

(** ** The executor *)

(** The body of the loop over [PATTERNS] in [main], for one plugin, with
    the two clock readings taken around the call. *)
Definition run_scanner (reg : scan_bench) (start_clock end_clock : Z)
    (p : pattern_scanner) : pattern_scanner :=
  let failed :=
    match Scan p (pattern_ reg) (masks_ reg) (memory reg) (data_ reg) (size_ reg) with
    | Returned results =>
        if negb (check_results reg results) then wrap64 (Failed p + 1) else Failed p
    | Thrown => wrap64 (Failed p + 1)
    end in
  set_counters p failed (wrap64 (Elapsed p + wrap64 (end_clock - start_clock))).

(** The loop over [PATTERNS] for one scenario; [tick] counts the clock
    readings taken so far. *)
Fixpoint run_scanners (pf : platform) (reg : scan_bench) (tick : nat)
    (ps : list pattern_scanner) : list pattern_scanner * nat :=
  match ps with
  | [] => ([], tick)
  | p :: ps =>
      let p' := run_scanner reg (rdtsc pf tick) (rdtsc pf (S tick)) p in
      let '(ps', tick') := run_scanners pf reg (S (S tick)) ps in
      (p' :: ps', tick')
  end.

(** A scenario as the specification describes it: window offset and
    length, pattern, mask, implant offsets and expected set. *)
Record scenario : Type := {
  window_offset : Z;
  window_size : Z;
  sc_pattern : list Z;
  sc_masks : list ascii;
  implants : list Z;
  sc_expected : gset Z;
}.

Definition scenario_of (reg : scan_bench) (offsets : list Z) : scenario :=
  {| window_offset := data_ reg - full_data_ reg; window_size := size_ reg;
     sc_pattern := pattern_ reg; sc_masks := masks_ reg;
     implants := offsets; sc_expected := expected_ reg |}.

(** The loop over the tests in [main]: [n] tests remain. The scenarios
    generated are collected in [log]. *)
Fixpoint run_tests (fuel : nat) (n : nat) (pf : platform) (reg : scan_bench)
    (tick : nat) (ps : list pattern_scanner) (log : list scenario)
    : option (scan_bench * list pattern_scanner * list scenario) :=
  match n with
  | O => Some (reg, ps, log)
  | S n' =>
      '(reg, offsets) ← generate fuel reg;
      let '(ps, tick) := run_scanners pf reg tick ps in
      run_tests fuel n' pf reg tick ps (log ++ [scenario_of reg offsets])
  end.

(** How a run of [main] ends. *)
Inductive run_outcome (A : Type) : Type :=
  | Finished (a : A)
  | Aborted        (* the process was terminated during set-up *)
  | OutOfFuel      (* a pattern was redrawn more than [fuel] times *)
  | Killed.        (* an access trapped: the process was killed *)

Global Arguments Finished {A} a.
Global Arguments Aborted {A}.
Global Arguments OutOfFuel {A}.
Global Arguments Killed {A}.

(** [main] up to the end of the test loop. [argv1] is the file named on
    the command line, if any; [seed] is the constant the object is built
    with, [RNG_SEED] in the source as it stands. Accesses are not checked
    here, so the result is never [Killed]: [main_checked] is the run of
    the process. *)
Definition main_tests (fuel : nat) (pf : platform) (seed : Z)
    (argv1 : option file_status) (PATTERNS : list pattern_scanner)
    : run_outcome (scan_bench * list pattern_scanner * list scenario) :=
  let reg := scan_bench_new pf seed in
  let reg :=
    match argv1 with
    | Some file => reset_file pf reg file
    | None => Some (reset_size pf reg REGION_SIZE)
    end in
  match reg with
  | None => Aborted
  | Some reg =>
      match run_tests fuel TEST_COUNT pf reg 0 PATTERNS [] with
      | Some r => Finished r
      | None => OutOfFuel
      end
  end.

(** ** Ranking *)

(** The comparator handed to [std::sort]. *)
Definition rank_less (lhs rhs : pattern_scanner) : bool :=
  if bool_decide (Failed lhs ≠ Failed rhs) then bool_decide (Failed lhs < Failed rhs)
  else bool_decide (Elapsed lhs < Elapsed rhs).

(** ** Notions used in the statements *)

(** The draws of [generate] up to the pattern loop. *)
Definition pattern_draw (reg : scan_bench) : nat * list Z * list ascii * G :=
  let '(_, g) := uniform_int_distribution 0 100 (rng_ reg) in
  let '(pattern_length, g) := uniform_int_distribution 5 32 g in
  (Z.to_nat pattern_length,
   resize (Z.to_nat pattern_length) 0 (pattern_ reg),
   resize (Z.to_nat pattern_length) "000"%char (masks_ reg), g).

(** [size] rounded up to a multiple of [page]. *)
Definition round_up (size page : Z) : Z := (size + page - 1) / page * page.

(** The address the inner stamping loop writes for position [j]. *)
Definition stamp_addr (data offset : Z) (j : nat) : Z :=
  data + wrap64 (offset + Z.of_nat j).


(** Two memories hold the same bytes at equal distances from two bases. *)
Definition mem_rel (b1 b2 : Z) (m1 m2 : Z → Z) : Prop :=
  ∀ i, m1 (b1 + i) = m2 (b2 + i).

(** Two objects about to generate the same scenarios: the same engine,
    pattern buffers and window content, at whatever addresses. *)
Definition same_content (r1 r2 : scan_bench) : Prop :=
  full_size_ r1 = full_size_ r2 ∧ rng_ r1 = rng_ r2
  ∧ pattern_ r1 = pattern_ r2 ∧ masks_ r1 = masks_ r2
  ∧ mem_rel (full_data_ r1) (full_data_ r2) (memory r1) (memory r2).

(** Two plugin lists that agree everywhere but at position [k]. *)
Definition agree_except (k : nat) (ps1 ps2 : list pattern_scanner) : Prop :=
  length ps1 = length ps2 ∧ ∀ i : nat, i ≠ k → ps1 !! i = ps2 !! i.

(** Two test loops that end the same way, with the same object, the same
    scenarios and the same plugins but for the one at position [k]. *)
Definition same_run_except (k : nat)
    (r1 r2 : option (scan_bench * list pattern_scanner * list scenario)) : Prop :=
  match r1, r2 with
  | Some (reg1, ps1, log1), Some (reg2, ps2, log2) =>
      reg1 = reg2 ∧ log1 = log2 ∧ agree_except k ps1 ps2
  | None, None => True
  | _, _ => False
  end.

(** The scenarios of a run. *)
Definition scenarios_of
    (o : run_outcome (scan_bench * list pattern_scanner * list scenario))
    : run_outcome (list scenario) :=
  match o with
  | Finished (_, _, log) => Finished log
  | Aborted => Aborted
  | OutOfFuel => OutOfFuel
  | Killed => Killed
  end.

End Harness.

Global Arguments scan_bench G : clear implicits.

(** ** The contract of [std::sort] *)

(** [comp] is a strict weak ordering: irreflexive, transitive, and with a
    transitive incomparability. *)
Definition strict_weak_order {A : Type} (comp : A → A → bool) : Prop :=
  (∀ a, comp a a = false)
  ∧ (∀ a b c, comp a b = true → comp b c = true → comp a c = true)
  ∧ (∀ a b c, comp a b = false → comp b a = false →
              comp b c = false → comp c b = false →
              comp a c = false ∧ comp c a = false).

(** The result is a rearrangement of the input in which no element
    compares less than an element before it. *)
Definition sort_contract {A : Type}
    (sort : (A → A → bool) → list A → list A) : Prop :=
  ∀ comp l, strict_weak_order comp →
    sort comp l ≡ₚ l
    ∧ ∀ (i j : nat) a b, (i < j)%nat →
        sort comp l !! i = Some a → sort comp l !! j = Some b → comp b a = false.

(** One sorting function, to run the ranking on concrete inputs. *)
Definition not_after {A : Type} (comp : A → A → bool) : relation A :=
  λ a b, comp b a = false.

Global Instance not_after_dec {A : Type} (comp : A → A → bool) a b :
  Decision (not_after comp a b).
Proof. unfold not_after. apply _. Defined.

Definition merge_sort_by {A : Type} (comp : A → A → bool) : list A → list A :=
  merge_sort (not_after comp).

(** [main] from the end of the test loop: the ranking. *)
Definition main {G : Type} `{!StdRandom G}
    (std_sort : (pattern_scanner → pattern_scanner → bool) →
                list pattern_scanner → list pattern_scanner)
    (fuel : nat) (pf : platform) (seed : Z) (argv1 : option file_status)
    (PATTERNS : list pattern_scanner) : run_outcome (list pattern_scanner) :=
  match main_tests fuel pf seed argv1 PATTERNS with
  | Finished (_, ps, _) => Finished (std_sort rank_less ps)
  | Aborted => Aborted
  | OutOfFuel => OutOfFuel
  | Killed => Killed
  end.

(** ** The process: access faults *)

Section Process.

Context {G : Type} `{!StdRandom G}.

(** May the process load from and store to this address? It may when the
    address lies in a page the object mapped read-write. The protection
    map knows the allocation of the object only: every other address
    counts as not mapped. *)
Definition accessible (reg : scan_bench G) (a : Z) : bool :=
  bool_decide (protection reg a = Some PROT_RW).

(** The addresses the inner stamping loop stores to for one occurrence:
    the positions whose mask is not the wildcard. *)
Definition stamp_stores (data offset : Z) (pattern : list Z) (masks : list ascii)
    : list Z :=
  stamp_addr data offset <$>
    filter (λ j : nat, is_wildcard (default "?"%char (masks !! j)) = false)
           (seq 0 (length pattern)).

(** Modelled from the spec: the source of [FindPatternSimple] is missing.
    The addresses it loads from: "for every start offset where the pattern
    could fit, compare each fixed-mask position". *)
Definition FindPatternSimple_loads (data length : Z) (masks : list ascii) : list Z :=
  i ← seqZ 0 (length - Z.of_nat (List.length masks) + 1);
  (λ j : nat, data + i + Z.of_nat j) <$>
    filter (λ j : nat, is_fixed (default "?"%char (masks !! j)) = true)
           (seq 0 (List.length masks)).

(** Sequencing of steps of the process. *)
Definition run_bind {A B : Type} (o : run_outcome A) (f : A → run_outcome B)
    : run_outcome B :=
  match o with
  | Finished a => f a
  | Aborted => Aborted
  | OutOfFuel => OutOfFuel
  | Killed => Killed
  end.

(** [scan_bench::generate] in the process: the process is killed when one
    of the stores of the stamping loops, or one of the loads of the oracle
    that follow them, goes to an address it may not access. *)
Definition generate_checked (fuel : nat) (reg : scan_bench G)
    : run_outcome (scan_bench G * list Z) :=
  match generate fuel reg with
  | None => OutOfFuel
  | Some (reg', offsets) =>
      if forallb (accessible reg)
           (offsets ≫= λ offset,
              stamp_stores (data_ reg') offset (pattern_ reg') (masks_ reg'))
         && forallb (accessible reg)
              (FindPatternSimple_loads (data_ reg') (size_ reg') (masks_ reg'))
      then Finished (reg', offsets)
      else Killed
  end.

(** Modelled from the spec: the code of the plugins other than Simple is
    not among the sources. A plugin as the process runs it: the
    [pattern_scanner], and the addresses a call of its scan operation loads
    from, given the arguments of the call. *)
Record plugin : Type := {
  scanner : pattern_scanner;
  Loads : list Z → list ascii → (Z → Z) → Z → Z → list Z;
}.

(** A call of a scan operation in the process: control comes back to the
    executor with a [scan_outcome], or a load traps. *)
Inductive call_result : Type :=
  | Back (o : scan_outcome)
  | Trap.

Definition call_Scan (reg : scan_bench G) (c : plugin) : call_result :=
  if forallb (accessible reg)
       (Loads c (pattern_ reg) (masks_ reg) (memory reg) (data_ reg) (size_ reg))
  then Back (Scan (scanner c) (pattern_ reg) (masks_ reg) (memory reg)
               (data_ reg) (size_ reg))
  else Trap.

(** The loop over [PATTERNS] in the process: a trap inside a call is not
    an exception, [catch (...)] does not see it, and nothing after the call
    is executed. *)
Fixpoint run_scanners_checked (pf : platform) (reg : scan_bench G) (tick : nat)
    (cs : list plugin) : run_outcome (list plugin * nat) :=
  match cs with
  | [] => Finished ([], tick)
  | c :: cs =>
      match call_Scan reg c with
      | Trap => Killed
      | Back _ =>
          let c' :=
            {| scanner := run_scanner reg (rdtsc pf tick) (rdtsc pf (S tick)) (scanner c);
               Loads := Loads c |} in
          run_bind (run_scanners_checked pf reg (S (S tick)) cs)
            (λ '(cs', tick'), Finished (c' :: cs', tick'))
      end
  end.

(** The loop over the tests in the process. *)
Fixpoint run_tests_checked (fuel : nat) (n : nat) (pf : platform)
    (reg : scan_bench G) (tick : nat) (cs : list plugin) (log : list scenario)
    : run_outcome (scan_bench G * list plugin * list scenario) :=
  match n with
  | O => Finished (reg, cs, log)
  | S n' =>
      run_bind (generate_checked fuel reg) (λ '(reg, offsets),
        run_bind (run_scanners_checked pf reg tick cs) (λ '(cs, tick),
          run_tests_checked fuel n' pf reg tick cs (log ++ [scenario_of reg offsets])))
  end.

(** [main] in the process, from set-up to the ranking. [reset] stores
    into the pages it has just mapped read-write. *)
Definition main_checked
    (std_sort : (pattern_scanner → pattern_scanner → bool) →
                list pattern_scanner → list pattern_scanner)
    (fuel : nat) (pf : platform) (seed : Z) (argv1 : option file_status)
    (PATTERNS : list plugin) : run_outcome (list pattern_scanner) :=
  let reg := scan_bench_new pf seed in
  let reg :=
    match argv1 with
    | Some file => reset_file pf reg file
    | None => Some (reset_size pf reg REGION_SIZE)
    end in
  match reg with
  | None => Aborted
  | Some reg =>
      run_bind (run_tests_checked fuel TEST_COUNT pf reg 0 PATTERNS [])
        (λ '(_, cs, _), Finished (std_sort rank_less (scanner <$> cs)))
  end.

(** The first scenario of a run. *)
Definition first_scenario (o : run_outcome (list scenario)) : option scenario :=
  match o with
  | Finished (s :: _) => Some s
  | _ => None
  end.

End Process.

(** Modelled from the spec: the Simple plugin as the process runs it; its
    loads are those of [FindPatternSimple], which it calls on the
    window. *)
Definition simple_code : plugin :=
  {| scanner := simple_plugin simple_new;
     Loads := λ _ masks _ data length, FindPatternSimple_loads data length masks |}.

(** A plugin whose loads stay inside the window it is given. *)
Definition loads_inside (c : plugin) : Prop :=
  ∀ pattern masks m data length a,
    a ∈ Loads c pattern masks m data length → data ≤ a < data + length.

(** ** Notions used in the further statements *)

(** The modulus of [std::minstd_rand0]. *)
Definition minstd_modulus : Z := 2147483647.

(** The contract of [std::uniform_int_distribution]: a draw from [[a, b]]
    lies in [[a, b]]. *)
Definition draws_in_range (G : Type) `{!StdRandom G} : Prop :=
  ∀ a b (g : G), a ≤ b → a ≤ (uniform_int_distribution a b g).1 ≤ b.

(** The cycles [main] measures for the plugin at position [i] of [len]
    plugins over [n] tests, when [tick] clock readings were taken before:
    each test reads the clock twice per plugin. *)
Fixpoint cycles_measured (pf : platform) (tick len i n : nat) : Z :=
  match n with
  | O => 0
  | S n' =>
      wrap64 (rdtsc pf (S (tick + 2 * i)) - rdtsc pf (tick + 2 * i))
      + cycles_measured pf (tick + 2 * len) len i n'
  end.

(** What the comparator of [main] looks at: failures, then cycles. *)
Definition rank_key (p : pattern_scanner) : Z * Z := (Failed p, Elapsed p).

(** The lexicographic order on the keys. *)
Definition key_le (k1 k2 : Z * Z) : Prop :=
  k1.1 < k2.1 ∨ (k1.1 = k2.1 ∧ k1.2 ≤ k2.2).

(** ** An engine that replays a script *)

(** Each draw consumes one word of the script; a uniform draw from
    [[a, b]] reduces it into the range, a Bernoulli draw succeeds on a
    non-zero word. An exhausted script yields [a] and success. It serves to
    evaluate the model on concrete inputs. *)
Global Instance scripted : StdRandom (list Z) :=
  {| mt19937_seed_seq := λ words, words;
     uniform_int_distribution := λ a b g,
       match g with
       | [] => (a, [])
       | w :: g => (a + w mod (b - a + 1), g)
       end;
     bernoulli_distribution := λ _ g,
       match g with
       | [] => (true, [])
       | w :: g => (negb (bool_decide (w = 0)), g)
       end |}.

(** ** Concrete inputs *)

(** A platform with pages of 256 bytes whose allocator answers [base]. *)
Definition small_platform (base entropy : Z) : platform :=
  {| page_size := 256;
     protect_alloc := λ _, base;
     random_device := entropy;
     rdtsc := λ n, 1000 + 7 * Z.of_nat n * Z.of_nat n;
     byte_buffer_ctor := λ length, bool_decide (length < 2 ^ 48) |}.

(** A platform with pages of 4096 bytes. *)
Definition page4k_platform : platform :=
  {| page_size := 4096;
     protect_alloc := λ _, 1048576;
     random_device := 2463534242;
     rdtsc := λ n, 5 * Z.of_nat n;
     byte_buffer_ctor := λ length, bool_decide (length < 2 ^ 48) |}.

(** The object with its engine replaced. *)
Definition with_rng {G : Type} (reg : scan_bench G) (g : G) : scan_bench G :=
  {| raw_data_ := raw_data_ reg; raw_size_ := raw_size_ reg;
     full_data_ := full_data_ reg; full_size_ := full_size_ reg;
     data_ := data_ reg; size_ := size_ reg; seed_ := seed_ reg; rng_ := g;
     pattern_ := pattern_ reg; masks_ := masks_ reg; expected_ := expected_ reg;
     memory := memory reg; protection := protection reg |}.

(** The haystack ["AAXXAAYYAA"] of the specification. *)
Definition haystack : list Z := [65; 65; 88; 88; 65; 65; 89; 89; 65; 65].

(** The region laid out around [haystack]. *)
Definition haystack_region : scan_bench (list Z) :=
  reset (small_platform 4096 0) (scan_bench_new (small_platform 4096 0) 1)
    (Some haystack) 10.

(** A script: window offset 3, pattern length 5, a first pass of five
    wildcards, a second pass drawing the bytes 65, 66 and 67 with
    wildcards at the positions 1 and 4, three occurrences at the offsets
    16, 18 and 200. *)
Definition retry_script : list Z :=
  [3; 0; 0; 0; 0; 0; 0; 1; 65; 0; 1; 66; 1; 67; 0; 1; 16; 18; 200].

Definition retry_region : scan_bench (list Z) := with_rng haystack_region retry_script.

(** A new object on the platform with pages of 4096 bytes. *)
Definition fresh : scan_bench (list Z) := scan_bench_new page4k_platform 1.

(** An object whose window starts at 4355 and whose expected set is
    [{18, 200}]. *)
Definition verifier_region : scan_bench (list Z) :=
  {| raw_data_ := 4096; raw_size_ := 768; full_data_ := 4352; full_size_ := 256;
     data_ := 4355; size_ := 253; seed_ := 1; rng_ := [];
     pattern_ := [65; 0; 66; 67; 0]; masks_ := ["x"; "?"; "x"; "x"; "?"]%char;
     expected_ := {[ 18; 200 ]};
     memory := λ _, 0; protection := λ _, None |}.

(** Three plugins: one that throws, one that reports nothing, and the
    baseline. *)
Definition throwing_plugin : pattern_scanner :=
  {| GetName := "Throws"; Scan := λ _ _ _ _ _, Thrown; Failed := 0; Elapsed := 0 |}.

Definition silent_plugin : pattern_scanner :=
  {| GetName := "Silent"; Scan := λ _ _ _ _ _, Returned []; Failed := 0; Elapsed := 0 |}.

Definition three_plugins : list pattern_scanner :=
  [silent_plugin; throwing_plugin; simple_plugin simple_new].

(** The scenarios of two tests over the haystack, the object seeded
    with 7. *)
Definition two_tests (pf : platform) (ps : list pattern_scanner)
    : option (list scenario) :=
  (λ r, r.2) <$>
    run_tests 4 2 pf (reset pf (scan_bench_new pf 7) (Some haystack) 10) 0 ps [].

(** Three plugins as a run may leave them. *)
Definition ranked_a : pattern_scanner := set_counters silent_plugin 0 900.
Definition ranked_b : pattern_scanner := set_counters throwing_plugin 1 10.
Definition ranked_c : pattern_scanner := set_counters (simple_plugin simple_new) 0 500.


(** A second sorting function: merge sort of the reversed list. *)
Definition merge_sort_rev {A : Type} (comp : A → A → bool) (l : list A) : list A :=
  merge_sort_by comp (reverse l).

(** A plugin that loads nothing. *)
Definition quiet (p : pattern_scanner) : plugin :=
  {| scanner := p; Loads := λ _ _ _ _ _, [] |}.

(** A plugin that loads every byte of the window and the byte after it. *)
Definition overreading_code : plugin :=
  {| scanner := {| GetName := "Overreads"; Scan := λ _ _ _ _ _, Returned [];
                   Failed := 0; Elapsed := 0 |};
     Loads := λ _ _ _ data length, seqZ data (length + 1) |}.

(** Three plugins of the process: one that loads nothing, one that
    overreads, and the baseline. *)
Definition three_codes : list plugin :=
  [quiet silent_plugin; overreading_code; simple_code].

(** A plugin that throws and enters the run with five failures. *)
Definition late_thrower : pattern_scanner :=
  {| GetName := "Late"; Scan := λ _ _ _ _ _, Thrown; Failed := 5; Elapsed := 0 |}.

(** The scenarios of a run of [main] over the haystack with the seed 7
    and no plugins. *)
Definition replay_run (pf : platform) : run_outcome (list scenario) :=
  scenarios_of (main_tests 4 pf 7 (Some (ReadOk haystack)) []).

(** * Properties *)

(** ** Machine integers *)

Lemma wrap64_range z : 0 ≤ wrap64 z < 2 ^ 64.
Proof. unfold wrap64. apply Z.mod_pos_bound. lia. Qed.

Lemma wrap64_small z : 0 ≤ z < 2 ^ 64 → wrap64 z = z.
Proof. unfold wrap64. intros. by apply Z.mod_small. Qed.


(** ** Verification *)

Section VerifierProperties.

Context {G : Type} `{!StdRandom G}.
Implicit Types (reg : scan_bench G) (results : list Z).

Lemma elem_of_shift_results_acc data results (acc : gset Z) x :
  x ∈ foldl (λ shifted result, {[ wrap64 (result - data) ]} ∪ shifted) acc results
  ↔ x ∈ acc ∨ ∃ r, r ∈ results ∧ x = wrap64 (r - data).
Proof.
  revert acc. induction results as [|r results IH]; intros acc; simpl.
  - split; [auto|]. intros [?|(r & Hr & _)]; [done|]. by apply elem_of_nil in Hr.
  - rewrite IH, elem_of_union, elem_of_singleton. split.
    + intros [[->|?]|(r' & ? & ->)]; [right|by left|right].
      * exists r. split; [left|done].
      * exists r'. split; [by right|done].
    + intros [?|(r' & Hr' & ->)]; [by left; right|].
      apply elem_of_cons in Hr' as [->|?]; [by left; left|].
      right. by exists r'.
Qed.

(** The shifted set holds exactly the relative offsets of the results. *)
Lemma elem_of_shift_results reg results x :
  x ∈ shift_results reg results ↔ ∃ r, r ∈ results ∧ x = wrap64 (r - data_ reg).
Proof.
  unfold shift_results. rewrite elem_of_shift_results_acc.
  split; [|by right]. by intros [?%not_elem_of_empty|?].
Qed.

(** The verifier accepts exactly the result lists whose shifted set is
    the expected set. *)
Lemma check_results_true_iff reg results :
  check_results reg results = true ↔ shift_results reg results = expected_ reg.
Proof.
  unfold check_results. case_bool_decide as Hsz.
  - split; [done|]. intros Heq. by rewrite Heq in Hsz.
  - rewrite <-Is_true_true, forallb_True, Forall_forall. split.
    + intros Hall. apply set_subseteq_size_eq; [|lia].
      intros x Hx. apply elem_of_elements in Hx.
      specialize (Hall x Hx). by apply bool_decide_unpack in Hall.
    + intros Heq x Hx. apply bool_decide_pack.
      apply elem_of_elements in Hx. by rewrite <-Heq.
Qed.

(** C1. The verifier accepts a result list exactly when the set of its
    relative offsets (address minus window base, as a [size_t]) is the
    expected set; an offset outside the expected set, or an expected offset
    that is missing, makes it reject. *)
Theorem check_results_correct reg results :
  (check_results reg results = true ↔ shift_results reg results = expected_ reg)
  ∧ (∀ x, x ∈ shift_results reg results ↔ ∃ r, r ∈ results ∧ x = wrap64 (r - data_ reg))
  ∧ ((∃ x, x ∈ shift_results reg results ∧ x ∉ expected_ reg) →
       check_results reg results = false)
  ∧ ((∃ x, x ∈ expected_ reg ∧ x ∉ shift_results reg results) →
       check_results reg results = false).
Proof.
  assert (Hiff : check_results reg results = true
                 ↔ shift_results reg results = expected_ reg).
  { unfold check_results. case_bool_decide as Hsz.
    - split; [done|]. intros Heq. by rewrite Heq in Hsz.
    - rewrite <-Is_true_true, forallb_True, Forall_forall.
      split.
      + intros Hall. apply set_subseteq_size_eq; [|lia].
        intros x Hx. apply elem_of_elements in Hx.
        specialize (Hall x Hx). by apply bool_decide_unpack in Hall.
      + intros Heq x Hx. apply bool_decide_pack.
        apply elem_of_elements in Hx. by rewrite <-Heq. }
  split; [done|]. split; [apply elem_of_shift_results|].
  split; intros (x & Hin & Hout); apply not_true_is_false; intros Hok;
    apply Hiff in Hok; rewrite Hok in *; done.
Qed.

End VerifierProperties.

(** ** Ranking *)

Section RankingProperties.

Implicit Types (a b c : pattern_scanner) (ps : list pattern_scanner).

Lemma rank_less_true a b :
  rank_less a b = true
  ↔ Failed a < Failed b ∨ (Failed a = Failed b ∧ Elapsed a < Elapsed b).
Proof.
  unfold rank_less. case_bool_decide; rewrite bool_decide_eq_true; lia.
Qed.

Lemma rank_less_false a b :
  rank_less a b = false
  ↔ Failed b < Failed a ∨ (Failed a = Failed b ∧ Elapsed b ≤ Elapsed a).
Proof.
  unfold rank_less. case_bool_decide; rewrite bool_decide_eq_false; lia.
Qed.

(** The comparator meets the precondition of [std::sort]. *)
Lemma rank_less_strict_weak_order : strict_weak_order rank_less.
Proof.
  split; [|split].
  - intros a. apply rank_less_false. lia.
  - intros a b c. rewrite !rank_less_true. lia.
  - intros a b c. rewrite !rank_less_false. lia.
Qed.

Lemma StronglySorted_lookup_lt {A} (R : relation A) (l : list A) (i j : nat) x y :
  StronglySorted R l → (i < j)%nat → l !! i = Some x → l !! j = Some y → R x y.
Proof.
  intros Hs. revert i j. induction Hs as [|z l Hs IH Hall]; intros i j Hij Hi Hj.
  - by rewrite lookup_nil in Hi.
  - destruct j as [|j]; [lia|]. destruct i as [|i]; simpl in *.
    + injection Hi as ->. rewrite Forall_forall in Hall.
      apply Hall. by eapply list_elem_of_lookup_2.
    + apply (IH i j); [lia|done..].
Qed.

(** Merge sort meets the contract of [std::sort]. *)
Lemma merge_sort_by_contract {A : Type} : sort_contract (@merge_sort_by A).
Proof.
  intros comp l (Hirr & Htr & Heq). unfold merge_sort_by.
  assert (Hasym : ∀ x y, comp x y = true → comp y x = false).
  { intros x y Hxy. destruct (comp y x) eqn:Hyx; [|done].
    by rewrite <-(Hirr x), <-(Htr x y x Hxy Hyx). }
  assert (Htot : Total (not_after comp)).
  { intros x y. unfold not_after. destruct (comp y x) eqn:Hyx; [|by left].
    right. by apply Hasym. }
  assert (Htrans : Transitive (not_after comp)).
  { intros x y z. unfold not_after. intros Hyx Hzy.
    destruct (comp z x) eqn:Hzx; [|done].
    destruct (comp y z) eqn:Hyz.
    { by rewrite <-Hyx, <-(Htr y z x Hyz Hzx). }
    destruct (comp x y) eqn:Hxy.
    { by rewrite <-Hzy, <-(Htr z x y Hzx Hxy). }
    destruct (Heq z y x Hzy Hyz Hyx Hxy) as [Hzx' _]. congruence. }
  split; [apply merge_sort_Permutation|].
  intros i j x y Hij Hi Hj.
  assert (Hs : StronglySorted (not_after comp) (merge_sort (not_after comp) l))
    by by apply StronglySorted_merge_sort.
  exact (StronglySorted_lookup_lt _ _ i j x y Hs Hij Hi Hj).
Qed.

(** The ranking [main] reports is the sorted list of the plugins the test
    loop leaves. *)
Lemma main_ranking {G : Type} `{!StdRandom G}
    (std_sort : (pattern_scanner → pattern_scanner → bool) →
                list pattern_scanner → list pattern_scanner)
    fuel pf seed argv1 PATTERNS ranked :
  main std_sort fuel pf seed argv1 PATTERNS = Finished ranked →
  ∃ reg ps log,
    main_tests fuel pf seed argv1 PATTERNS = Finished (reg, ps, log)
    ∧ ranked = std_sort rank_less ps.
Proof.
  unfold main.
  destruct (main_tests fuel pf seed argv1 PATTERNS) as [[[reg ps] log]| | |]; [|done..].
  intros [= <-]. by exists reg, ps, log.
Qed.

End RankingProperties.

(** ** The executor *)

Section ExecutorProperties.

Context {G : Type} `{!StdRandom G}.
Implicit Types (reg : scan_bench G) (p q : pattern_scanner)
  (ps pre post : list pattern_scanner).

(** Every plugin of the list is run, and two clock readings are taken for
    each. *)
Lemma run_scanners_length pf reg tick ps :
  length (run_scanners pf reg tick ps).1 = length ps
  ∧ (run_scanners pf reg tick ps).2 = (tick + 2 * length ps)%nat.
Proof.
  revert tick. induction ps as [|p ps IH]; intros tick; simpl.
  - split; [done|lia].
  - destruct (IH (S (S tick))) as [Hlen Htick].
    destruct (run_scanners pf reg (S (S tick)) ps) as [ps' tick']; simpl in *.
    split; [by rewrite Hlen|lia].
Qed.

Lemma run_scanners_cons pf reg tick p ps :
  (run_scanners pf reg tick (p :: ps)).1
  = run_scanner reg (rdtsc pf tick) (rdtsc pf (S tick)) p
      :: (run_scanners pf reg (S (S tick)) ps).1.
Proof. simpl. by destruct (run_scanners pf reg (S (S tick)) ps). Qed.

(** The loop over a concatenation is the loop over the first part followed
    by the loop over the second, the clock carried over. *)
Lemma run_scanners_app pf reg tick pre post :
  run_scanners pf reg tick (pre ++ post)
  = ((run_scanners pf reg tick pre).1
       ++ (run_scanners pf reg (tick + 2 * length pre) post).1,
     (tick + 2 * length (pre ++ post))%nat).
Proof.
  revert tick. induction pre as [|p pre IH]; intros tick; simpl.
  - rewrite Nat.add_0_r. destruct (run_scanners_length pf reg tick post) as [_ Ht].
    destruct (run_scanners pf reg tick post) as [post' tick']; simpl in *.
    by rewrite Ht.
  - rewrite IH. simpl.
    destruct (run_scanners pf reg (S (S tick)) pre) as [pre' t']; simpl.
    repeat f_equal; lia.
Qed.

(** Position [i] of the loop's result is the loop body applied to
    position [i] of the list, with the clock readings [2i] and [2i + 1]
    after the start. *)
Lemma run_scanners_lookup pf reg ps : ∀ tick (i : nat),
  (run_scanners pf reg tick ps).1 !! i
  = run_scanner reg (rdtsc pf (tick + 2 * i)) (rdtsc pf (S (tick + 2 * i)))
      <$> ps !! i.
Proof.
  induction ps as [|p ps IH]; intros tick i; [done|].
  rewrite run_scanners_cons. destruct i as [|i]; simpl.
  - by rewrite Nat.add_0_r.
  - rewrite IH. by replace (S (S tick) + 2 * i)%nat with (tick + S (i + S (i + 0)))%nat by lia.
Qed.

Lemma run_scanners_agree pf reg tick ps1 ps2 (k : nat) :
  agree_except k ps1 ps2 →
  agree_except k (run_scanners pf reg tick ps1).1 (run_scanners pf reg tick ps2).1
  ∧ (run_scanners pf reg tick ps1).2 = (run_scanners pf reg tick ps2).2.
Proof.
  intros [Hlen Hagree].
  destruct (run_scanners_length pf reg tick ps1) as [Hl1 Ht1].
  destruct (run_scanners_length pf reg tick ps2) as [Hl2 Ht2].
  split; [split|]; [congruence| |congruence].
  intros i Hi. by rewrite !run_scanners_lookup, Hagree.
Qed.

(** The test loop on two plugin lists that differ at one position only:
    the same scenarios, the same end, the same counters everywhere else. *)
Lemma run_tests_agree fuel n : ∀ pf reg tick ps1 ps2 log (k : nat),
  agree_except k ps1 ps2 →
  same_run_except k (run_tests fuel n pf reg tick ps1 log)
                    (run_tests fuel n pf reg tick ps2 log).
Proof.
  induction n as [|n IH]; intros pf reg tick ps1 ps2 log k Hagree; [done|].
  simpl. destruct (generate fuel reg) as [[reg' offsets]|]; simpl; [|done].
  destruct (run_scanners_agree pf reg' tick ps1 ps2 k Hagree) as [Hagree' Htick].
  destruct (run_scanners pf reg' tick ps1) as [ps1' t1].
  destruct (run_scanners pf reg' tick ps2) as [ps2' t2].
  simpl in Htick. subst t2. by apply IH.
Qed.

Lemma agree_except_middle pre p q post :
  agree_except (length pre) (pre ++ p :: post) (pre ++ q :: post).
Proof.
  split; [by rewrite !length_app|].
  intros i Hi. destruct (decide (i < length pre)%nat).
  - by rewrite !lookup_app_l.
  - rewrite !lookup_app_r by lia.
    destruct (i - length pre)%nat as [|i'] eqn:Hd; [lia|done].
Qed.

(** C4. When the scan operation of a plugin throws during a scenario, the
    executor adds one to the failure counter of that plugin and the
    difference of the two clock readings to its cycle counter (both
    unsigned 64-bit), and the loop goes on: the plugins before and after
    it are run and come out exactly as the loop over them alone, started
    at the same clock reading, leaves them. Over the whole test loop,
    putting any other plugin in its place changes neither the way the loop
    ends, nor the scenarios, nor the counters of the other plugins. *)
Theorem fault_is_counted pf reg tick pre p post :
  Scan p (pattern_ reg) (masks_ reg) (memory reg) (data_ reg) (size_ reg) = Thrown →
  let at_p := (tick + 2 * length pre)%nat in
  (∃ p',
     run_scanners pf reg tick (pre ++ p :: post)
     = ((run_scanners pf reg tick pre).1 ++ p'
          :: (run_scanners pf reg (at_p + 2) post).1,
        (tick + 2 * length (pre ++ p :: post))%nat)
     ∧ Failed p' = wrap64 (Failed p + 1)
     ∧ Elapsed p' = wrap64 (Elapsed p + wrap64 (rdtsc pf (S at_p) - rdtsc pf at_p))
     ∧ GetName p' = GetName p ∧ Scan p' = Scan p)
  ∧ (∀ fuel n reg0 log q,
       same_run_except (length pre)
         (run_tests fuel n pf reg0 tick (pre ++ p :: post) log)
         (run_tests fuel n pf reg0 tick (pre ++ q :: post) log)).
Proof.
  intros Hthrown at_p. split.
  - exists (run_scanner reg (rdtsc pf at_p) (rdtsc pf (S at_p)) p).
    split; [|unfold run_scanner; rewrite Hthrown; simpl; done].
    rewrite run_scanners_app, run_scanners_cons. fold at_p.
    by replace (S (S at_p)) with (at_p + 2)%nat by lia.
  - intros fuel n reg0 log q. apply run_tests_agree, agree_except_middle.
Qed.

End ExecutorProperties.

(** ** Pattern generation *)

Section PatternProperties.

Context {G : Type} `{!StdRandom G}.
Implicit Types (reg : scan_bench G) (pattern : list Z) (masks : list ascii) (g : G).

(** What one pass over the positions [i .. i+n-1] leaves behind. *)
Lemma mask_pass_spec n : ∀ (i : nat) pattern masks all_masks g pattern' masks' all_masks' g',
  mask_pass n i pattern masks all_masks g = (pattern', masks', all_masks', g') →
  (i + n ≤ length pattern)%nat → (i + n ≤ length masks)%nat →
  length pattern' = length pattern ∧ length masks' = length masks
  ∧ (∀ k : nat, (k < i ∨ i + n ≤ k)%nat →
       pattern' !! k = pattern !! k ∧ masks' !! k = masks !! k)
  ∧ (∀ k : nat, (i ≤ k < i + n)%nat →
       (masks' !! k = Some "x"%char ∧ ∃ v, pattern' !! k = Some (to_byte v))
       ∨ (masks' !! k = Some "?"%char ∧ pattern' !! k = Some 0))
  ∧ (all_masks' = true
     ↔ all_masks = true ∧ ∀ k : nat, (i ≤ k < i + n)%nat → masks' !! k = Some "?"%char).
Proof.
  induction n as [|n IH]; intros i pattern masks all_masks g pattern' masks' all_masks' g'.
  - simpl. intros [= <- <- <- <-] _ _. repeat split; try done; try lia.
    by intros [? _].
  - simpl. destruct (bernoulli_distribution 0.9 g) as [[] g1].
    + destruct (uniform_int_distribution 0 255 g1) as [v g2].
      intros Hpass Hlp Hlm.
      apply IH in Hpass as (Hp & Hm & Hout & Hin & Hall);
        rewrite ?length_insert; [|lia..].
      rewrite length_insert in Hp. rewrite length_insert in Hm.
      assert (Hi : masks' !! i = Some "x"%char ∧ pattern' !! i = Some (to_byte v)).
      { destruct (Hout i) as [-> ->]; [lia|].
        rewrite !list_lookup_insert_eq; [done|lia..]. }
      split; [done|]. split; [done|]. split; [|split].
      * intros k Hk. destruct (Hout k) as [-> ->]; [lia|].
        rewrite !list_lookup_insert_ne; [done|lia..].
      * intros k Hk. destruct (decide (k = i)) as [->|Hne].
        -- left. destruct Hi as [-> ->]. eauto.
        -- apply Hin. lia.
      * split.
        -- intros Ht. apply Hall in Ht as [? _]. done.
        -- intros [_ Hq]. specialize (Hq i). destruct Hi as [Hi _].
           rewrite Hi in Hq. by specialize (Hq ltac:(lia)).
    + intros Hpass Hlp Hlm.
      apply IH in Hpass as (Hp & Hm & Hout & Hin & Hall);
        rewrite ?length_insert; [|lia..].
      rewrite length_insert in Hp. rewrite length_insert in Hm.
      assert (Hi : masks' !! i = Some "?"%char ∧ pattern' !! i = Some 0).
      { destruct (Hout i) as [-> ->]; [lia|].
        rewrite !list_lookup_insert_eq; [done|lia..]. }
      split; [done|]. split; [done|]. split; [|split].
      * intros k Hk. destruct (Hout k) as [-> ->]; [lia|].
        rewrite !list_lookup_insert_ne; [done|lia..].
      * intros k Hk. destruct (decide (k = i)) as [->|Hne].
        -- by right.
        -- apply Hin. lia.
      * rewrite Hall. split; intros [Ha Hq]; (split; [done|]); intros k Hk.
        -- destruct (decide (k = i)) as [->|Hne]; [by destruct Hi|apply Hq; lia].
        -- apply Hq. lia.
Qed.

(** When the loop ends, some position is fixed and every wildcard position
    holds a zero byte. *)
Lemma mask_loop_spec fuel : ∀ (n : nat) pattern masks g pattern' masks' g',
  mask_loop fuel n pattern masks true g = Some (pattern', masks', g') →
  length pattern = n → length masks = n →
  length pattern' = n ∧ length masks' = n
  ∧ (∃ k : nat, masks' !! k = Some "x"%char)
  ∧ (∀ k : nat, (k < n)%nat →
       (masks' !! k = Some "x"%char ∧ ∃ v, pattern' !! k = Some (to_byte v))
       ∨ (masks' !! k = Some "?"%char ∧ pattern' !! k = Some 0)).
Proof.
  induction fuel as [|fuel IH]; intros n pattern masks g pattern' masks' g'; [done|].
  simpl. destruct (mask_pass n 0 pattern masks true g) as [[[p1 m1] all1] g1] eqn:Hpass.
  intros Hloop Hlp Hlm.
  apply mask_pass_spec in Hpass as (Hp & Hm & _ & Hin & Hall); [|lia..].
  destruct all1.
  - apply IH in Hloop; [done|congruence..].
  - injection Hloop as -> -> ->.
    split; [congruence|]. split; [congruence|]. split.
    + destruct (decide ("x"%char ∈ masks')) as [Hx|Hno].
      { by apply list_elem_of_lookup_1 in Hx. }
      assert (false = true) as [=]. apply Hall. split; [done|].
      intros k Hk. destruct (Hin k) as [[Hx _]|[Hq _]]; [lia| |done].
      destruct Hno. by eapply list_elem_of_lookup_2.
    + intros k Hk. apply Hin. lia.
Qed.


(** A pass that leaves a wildcard at every position is followed by
    another pass over all positions. *)
Lemma mask_loop_retry fuel (n : nat) pattern masks g p1 m1 all1 g1 :
  length pattern = n → length masks = n →
  mask_pass n 0 pattern masks true g = (p1, m1, all1, g1) →
  (∀ k : nat, (k < n)%nat → m1 !! k = Some "?"%char) →
  all1 = true
  ∧ mask_loop (S fuel) n pattern masks true g = mask_loop fuel n p1 m1 true g1.
Proof.
  intros Hlp Hlm Hpass Hq. simpl. rewrite Hpass.
  apply mask_pass_spec in Hpass as (_ & _ & _ & _ & Hall); [|lia..].
  assert (all1 = true) as ->; [|done].
  apply Hall. split; [done|]. intros k Hk. apply Hq. lia.
Qed.

Lemma generate_pattern fuel reg reg' offsets :
  generate fuel reg = Some (reg', offsets) →
  ∃ g', let '(n, pattern, masks, g) := pattern_draw reg in
    mask_loop fuel n pattern masks true g = Some (pattern_ reg', masks_ reg', g').
Proof.
  unfold generate, pattern_draw.
  destruct (uniform_int_distribution 0 100 (rng_ reg)) as [variation g0].
  destruct (uniform_int_distribution 5 32 g0) as [pattern_length g1].
  destruct (mask_loop _ _ _ _ _ _) as [[[pattern masks] g2]|]; [|done]. simpl.
  destruct (uniform_int_distribution 2 10 g2) as [result_count g3].
  destruct (stamp_all _ _ _ _ _ _ _ _) as [[m g4] offs].
  intros [= <- <-]. by exists g2.
Qed.


(** More fuel does not change what the loop, and [generate], return. *)
Lemma mask_loop_fuel_mono fuel : ∀ fuel' (n : nat) pattern masks all_masks g r,
  mask_loop fuel n pattern masks all_masks g = Some r → (fuel ≤ fuel')%nat →
  mask_loop fuel' n pattern masks all_masks g = Some r.
Proof.
  induction fuel as [|fuel IH]; intros fuel' n pattern masks all_masks g r; [done|].
  destruct fuel' as [|fuel']; [lia|]. simpl.
  destruct (mask_pass n 0 pattern masks all_masks g) as [[[p1 m1] []] g1]; [|done].
  intros Hloop Hle. apply IH; [done|lia].
Qed.

Lemma generate_fuel_mono fuel fuel' reg r :
  generate fuel reg = Some r → (fuel ≤ fuel')%nat → generate fuel' reg = Some r.
Proof.
  unfold generate. intros Hgen Hle.
  destruct (uniform_int_distribution 0 100 (rng_ reg)) as [variation g0].
  destruct (uniform_int_distribution 5 32 g0) as [pattern_length g1].
  destruct (mask_loop fuel _ _ _ _ _) as [[[pattern masks] g2]|] eqn:Hloop; [|done].
  by rewrite (mask_loop_fuel_mono _ _ _ _ _ _ _ _ Hloop Hle).
Qed.

(** C5. The pattern [generate] leaves in the object has a mask with at
    least one ['x'], every mask character is ['x'] or ['?'], and the
    pattern byte under a ['?'] is zero; and in the loop that draws it, a
    pass that left ['?'] at every position is followed by a new pass over
    all positions. *)
Theorem generate_never_all_wildcard fuel reg reg' offsets :
  generate fuel reg = Some (reg', offsets) →
  length (pattern_ reg') = length (masks_ reg')
  ∧ (∃ j : nat, masks_ reg' !! j = Some "x"%char)
  ∧ (∀ (j : nat) c, masks_ reg' !! j = Some c →
       c = "x"%char ∨ (c = "?"%char ∧ pattern_ reg' !! j = Some 0))
  ∧ (∀ fuel' (n : nat) pattern masks g p1 m1 all1 g1,
       length pattern = n → length masks = n →
       mask_pass n 0 pattern masks true g = (p1, m1, all1, g1) →
       (∀ k : nat, (k < n)%nat → m1 !! k = Some "?"%char) →
       mask_loop (S fuel') n pattern masks true g = mask_loop fuel' n p1 m1 true g1).
Proof.
  intros Hgen. apply generate_pattern in Hgen as [g' Hloop].
  unfold pattern_draw in Hloop.
  destruct (uniform_int_distribution 0 100 (rng_ reg)) as [variation g0].
  destruct (uniform_int_distribution 5 32 g0) as [pattern_length g1].
  apply mask_loop_spec in Hloop as (Hp & Hm & Hx & Hall);
    [|by rewrite length_resize..].
  split; [congruence|]. split; [done|]. split.
  - intros j c Hj.
    assert (Hlt : (j < Z.to_nat pattern_length)%nat).
    { rewrite <-Hm. by eapply lookup_lt_Some. }
    destruct (Hall j Hlt) as [[Hjx _]|[Hjq Hz]]; [left|right]; split_and?; congruence.
  - intros fuel' n pattern masks g p1 m1 all1 g2 Hlp Hlm Hpass Hq.
    by eapply mask_loop_retry.
Qed.

End PatternProperties.

(** ** The guarded region *)

Section RegionProperties.

Context {G : Type} `{!StdRandom G}.
Implicit Types (reg : scan_bench G) (pf : platform).

Lemma round_up_spec size page :
  0 < page →
  (page | round_up size page) ∧ size ≤ round_up size page < size + page.
Proof.
  intros Hpage. unfold round_up. split.
  - apply Z.divide_factor_r.
  - pose proof (Z.div_mod (size + page - 1) page ltac:(lia)) as Hdm.
    pose proof (Z.mod_pos_bound (size + page - 1) page Hpage) as Hb.
    lia.
Qed.

(** The size computation of [reset] when nothing wraps around. *)
Lemma reset_full_size pf reg region_data region_size :
  0 < page_size pf → 0 ≤ region_size →
  round_up region_size (page_size pf) + 2 * page_size pf < 2 ^ 64 →
  full_size_ (reset pf reg region_data region_size)
    = round_up region_size (page_size pf)
  ∧ raw_size_ (reset pf reg region_data region_size)
    = round_up region_size (page_size pf) + 2 * page_size pf.
Proof.
  intros Hpage Hsize Hfit.
  destruct (round_up_spec region_size (page_size pf) Hpage) as [_ Hr].
  assert (Hfull : wrap64 (wrap64 (wrap64 (region_size + page_size pf) - 1)
                          / page_size pf * page_size pf)
                  = round_up region_size (page_size pf)).
  { unfold round_up in *.
    rewrite (wrap64_small (region_size + page_size pf)) by lia.
    rewrite (wrap64_small (region_size + page_size pf - 1)) by lia.
    apply wrap64_small. lia. }
  unfold reset.
  destruct (match region_data with Some _ => _ | None => _ end) as [m g]. simpl.
  rewrite Hfull. split; [done|].
  rewrite (wrap64_small (page_size pf * 2)) by lia.
  rewrite wrap64_small by lia. lia.
Qed.

(** C6, with the range of [size_t] taken into account. For every
    content size whose raw allocation size (the size rounded up to a
    multiple of the page size, plus two pages) is representable as a
    [size_t]: [full_size_] is the size rounded up to the next multiple of
    the page size, hence a page multiple and at least the size; the raw
    allocation has [full_size_ + 2 * page_size] bytes; its first and its
    last page are without access, the bytes between are readable and
    writable; the usable window starts one page past the raw base. *)
Theorem reset_layout pf reg region_data region_size :
  0 < page_size pf → 0 ≤ region_size →
  round_up region_size (page_size pf) + 2 * page_size pf < 2 ^ 64 →
  let reg' := reset pf reg region_data region_size in
  let raw := raw_data_ reg' in
  full_size_ reg' = round_up region_size (page_size pf)
  ∧ (page_size pf | full_size_ reg')
  ∧ region_size ≤ full_size_ reg' < region_size + page_size pf
  ∧ raw_size_ reg' = full_size_ reg' + 2 * page_size pf
  ∧ raw = protect_alloc pf (raw_size_ reg')
  ∧ full_data_ reg' = raw + page_size pf
  ∧ (∀ a, raw ≤ a < raw + page_size pf → protection reg' a = Some PROT_NONE)
  ∧ (∀ a, raw + raw_size_ reg' - page_size pf ≤ a < raw + raw_size_ reg' →
          protection reg' a = Some PROT_NONE)
  ∧ (∀ a, full_data_ reg' ≤ a < full_data_ reg' + full_size_ reg' →
          protection reg' a = Some PROT_RW).
Proof.
  intros Hpage Hsize Hfit reg' raw.
  destruct (reset_full_size pf reg region_data region_size Hpage Hsize Hfit)
    as [Hfull Hraw].
  fold reg' in Hfull, Hraw.
  destruct (round_up_spec region_size (page_size pf) Hpage) as [Hdiv Hr].
  rewrite Hfull, Hraw.
  split; [done|]. split; [done|]. split; [done|]. split; [done|].
  assert (Hrawdata : raw = protect_alloc pf (raw_size_ reg')).
  { subst raw reg'. unfold reset.
    by destruct (match region_data with Some _ => _ | None => _ end). }
  assert (Hfd : full_data_ reg' = raw + page_size pf).
  { subst raw reg'. unfold reset.
    by destruct (match region_data with Some _ => _ | None => _ end). }
  assert (Hprot : protection reg' =
    set_protection (set_protection (set_protection (protection reg)
        raw (raw_size_ reg') PROT_RW) raw (page_size pf) PROT_NONE)
      (raw + raw_size_ reg' - page_size pf) (page_size pf) PROT_NONE).
  { subst raw reg'. unfold reset.
    by destruct (match region_data with Some _ => _ | None => _ end). }
  split; [by rewrite <-Hraw|]. split; [done|].
  rewrite Hprot, Hfd, Hraw. unfold set_protection.
  split; [|split]; intros a Ha; repeat case_bool_decide; try done; lia.
Qed.

(** The fields [reset] computes, whatever the sizes. *)
Lemma reset_fields pf reg region_data region_size :
  let reg' := reset pf reg region_data region_size in
  0 ≤ full_size_ reg' < 2 ^ 64
  ∧ full_size_ reg' =
      wrap64 (wrap64 (wrap64 (region_size + page_size pf) - 1)
              / page_size pf * page_size pf)
  ∧ pattern_ reg' = pattern_ reg ∧ masks_ reg' = masks_ reg
  ∧ full_data_ reg' = raw_data_ reg' + page_size pf
  ∧ match region_data with
    | Some content =>
        memory reg' =
          memcpy (memset (memory reg) (full_data_ reg') 0
                    (wrap64 (full_size_ reg' - region_size)))
            (full_data_ reg' + wrap64 (full_size_ reg' - region_size))
            content region_size
        ∧ rng_ reg' = rng_ reg
    | None =>
        (memory reg', rng_ reg') =
          generate_n (Z.to_nat (full_size_ reg')) (full_data_ reg')
            (memory reg) (rng_ reg)
    end.
Proof.
  unfold reset. destruct region_data as [content|]; simpl.
  - split; [apply wrap64_range|done].
  - destruct (generate_n _ _ _ _) as [m g] eqn:Hgen. simpl.
    split; [apply wrap64_range|done].
Qed.

(** C7. When [reset] is given content no longer than the page-rounded
    size it computes, the first [full_size_ - size] bytes of the usable
    window are zero and the content fills the last [size] bytes; content
    that fills the window exactly is not padded. *)
Theorem reset_right_aligns pf reg content :
  let region_size := Z.of_nat (length content) in
  let reg' := reset pf reg (Some content) region_size in
  let extra := full_size_ reg' - region_size in
  region_size ≤ full_size_ reg' →
  (∀ i, 0 ≤ i < extra → memory reg' (full_data_ reg' + i) = 0)
  ∧ (∀ i : nat, (i < length content)%nat →
       content !! i = Some (memory reg' (full_data_ reg' + extra + Z.of_nat i)))
  ∧ (region_size = full_size_ reg' →
       ∀ i : nat, (i < length content)%nat →
         content !! i = Some (memory reg' (full_data_ reg' + Z.of_nat i))).
Proof.
  intros region_size reg' extra Hle.
  destruct (reset_fields pf reg (Some content) region_size)
    as (Hrange & _ & _ & _ & _ & Hmem & _).
  fold reg' in Hrange, Hmem.
  assert (Hextra : wrap64 (full_size_ reg' - region_size) = extra).
  { apply wrap64_small. subst extra region_size. lia. }
  rewrite Hextra in Hmem.
  assert (Hcopy : ∀ i : nat, (i < length content)%nat →
    content !! i = Some (memory reg' (full_data_ reg' + extra + Z.of_nat i))).
  { intros i Hi. rewrite Hmem. unfold memcpy.
    rewrite bool_decide_eq_true_2 by (subst region_size; lia).
    replace (full_data_ reg' + extra + Z.of_nat i - (full_data_ reg' + extra))
      with (Z.of_nat i) by lia.
    rewrite Nat2Z.id. destruct (lookup_lt_is_Some_2 content i Hi) as [v ->]. done. }
  split; [|split; [done|]].
  - intros i Hi. rewrite Hmem. unfold memcpy, memset.
    rewrite bool_decide_eq_false_2 by lia.
    by rewrite bool_decide_eq_true_2 by lia.
  - intros Hfill i Hi. rewrite (Hcopy i Hi). do 3 f_equal. subst extra. lia.
Qed.

End RegionProperties.

(** ** Stamping *)

Section StampProperties.

Implicit Types (pattern : list Z) (masks : list ascii) (m : Z → Z).

(** The inner loop over the positions [j .. j+n-1]: an address that is not
    the address of a non-wildcard position among them keeps its byte. *)
Lemma stamp_frame_from n : ∀ (j : nat) data offset pattern masks m a,
  (∀ k : nat, (j ≤ k < j + n)%nat → a = stamp_addr data offset k →
     masks !! k = Some "?"%char ∨ masks !! k = None) →
  stamp n j data offset pattern masks m a = m a.
Proof.
  induction n as [|n IH]; intros j data offset pattern masks m a Hfree; [done|].
  simpl. rewrite IH by (intros k Hk; apply Hfree; lia).
  destruct (is_wildcard _) eqn:Hw; [done|].
  unfold store. case_bool_decide as Ha; [|done].
  destruct (Hfree j ltac:(lia) Ha) as [Hq|Hq]; rewrite Hq in Hw; simpl in Hw;
    by unfold is_wildcard in Hw; rewrite bool_decide_eq_true_2 in Hw.
Qed.

(** The inner loop over the positions [j .. j+n-1]: the address of a
    non-wildcard position [k] among them holds the pattern byte, provided
    no later position is written to the same address. *)
Lemma stamp_written_from n : ∀ (j : nat) data offset pattern masks m (k : nat) c,
  (j ≤ k < j + n)%nat → masks !! k = Some c → c ≠ "?"%char →
  (∀ k' : nat, (k < k' < j + n)%nat →
     stamp_addr data offset k' ≠ stamp_addr data offset k) →
  stamp n j data offset pattern masks m (stamp_addr data offset k)
    = default 0 (pattern !! k).
Proof.
  induction n as [|n IH]; intros j data offset pattern masks m k c Hk Hc Hne Hinj;
    [lia|].
  simpl. destruct (decide (k = j)) as [->|Hkj].
  - rewrite stamp_frame_from.
    + rewrite Hc. simpl. unfold is_wildcard. rewrite bool_decide_eq_false_2 by done.
      unfold store. by rewrite bool_decide_eq_true_2.
    + intros k' Hk' Heq. destruct (Hinj k'); [lia|done].
  - apply (IH (S j) _ _ _ _ _ k c); [lia|done|done|].
    intros k' Hk'. apply Hinj. lia.
Qed.

Lemma stamp_addr_plain data offset (j : nat) :
  0 ≤ offset → offset + Z.of_nat j < 2 ^ 64 →
  stamp_addr data offset j = data + offset + Z.of_nat j.
Proof. intros. unfold stamp_addr. rewrite wrap64_small; lia. Qed.



End StampProperties.

(** ** The baseline plugin *)

Section BaselineProperties.

Context {G : Type} `{!StdRandom G}.
Implicit Types (reg : scan_bench G) (self : simple_pattern_scanner).

(** The expected set [generate] stores is the oracle's answer for the
    window, pattern and mask it leaves in the object. *)
Lemma generate_expected fuel reg reg' offsets :
  generate fuel reg = Some (reg', offsets) →
  expected_ reg' =
    shift_results reg'
      (FindPatternSimple (memory reg') (data_ reg') (size_ reg')
         (pattern_ reg') (masks_ reg')).
Proof.
  unfold generate.
  destruct (uniform_int_distribution 0 100 (rng_ reg)) as [variation g0].
  destruct (uniform_int_distribution 5 32 g0) as [pattern_length g1].
  destruct (mask_loop _ _ _ _ _ _) as [[[pattern masks] g2]|]; [|done]. simpl.
  destruct (uniform_int_distribution 2 10 g2) as [result_count g3].
  destruct (stamp_all _ _ _ _ _ _ _ _) as [[m g4] offs].
  by intros [= <- <-].
Qed.

(** C9. On the scenario [generate] produced, the Simple plugin, given the
    pattern and the mask through [Init] and scanning the window, returns
    the address list the generator obtained from [FindPatternSimple]; the
    plugin does not throw, passes [check_results], and the executor leaves
    its failure counter as it was. *)
Theorem simple_is_oracle fuel reg reg' offsets self start_clock end_clock :
  generate fuel reg = Some (reg', offsets) →
  let oracle :=
    FindPatternSimple (memory reg') (data_ reg') (size_ reg')
      (pattern_ reg') (masks_ reg') in
  simple_Scan (simple_Init self (pattern_ reg') (masks_ reg'))
    (memory reg') (data_ reg') (size_ reg') = Some oracle
  ∧ Scan (simple_plugin self) (pattern_ reg') (masks_ reg')
      (memory reg') (data_ reg') (size_ reg') = Returned oracle
  ∧ shift_results reg' oracle = expected_ reg'
  ∧ check_results reg' oracle = true
  ∧ Failed (run_scanner reg' start_clock end_clock (simple_plugin self))
    = Failed (simple_plugin self).
Proof.
  intros Hgen oracle.
  assert (Hexp : shift_results reg' oracle = expected_ reg').
  { symmetry. by apply generate_expected in Hgen. }
  assert (Hok : check_results reg' oracle = true).
  { by apply check_results_true_iff. }
  split; [done|]. split; [done|]. split; [done|]. split; [done|].
  unfold run_scanner. simpl. fold oracle. by rewrite Hok.
Qed.

End BaselineProperties.

(** ** Unreadable input files *)

Section FileProperties.

Context {G : Type} `{!StdRandom G}.
Implicit Types (reg : scan_bench G) (pf : platform) (f : file_status).



End FileProperties.

(** ** Reproducibility *)

Section ReplayProperties.

Context {G : Type} `{!StdRandom G}.
Implicit Types (reg r : scan_bench G) (pf : platform) (m : Z → Z) (g : G).

(** The engine is a function of the resolved seed alone. *)
Lemma create_twister_resolved pf seed :
  (create_twister pf seed).2
  = mt19937_seed_seq (minstd_generate 624 (minstd_rand0_seed (create_twister pf seed).1)).
Proof. done. Qed.

Lemma create_twister_nonzero pf seed : seed ≠ 0 → (create_twister pf seed).1 = seed.
Proof. intros Hs. unfold create_twister. by rewrite bool_decide_eq_false_2. Qed.

(** With [RNG_SEED] as it stands, the seed of a run is the word the
    entropy source supplies. *)
Lemma default_seed_is_entropy pf :
  seed_ (scan_bench_new pf RNG_SEED) = wrap32 (random_device pf).
Proof. done. Qed.

Lemma store_rel b1 b2 m1 m2 k v :
  mem_rel b1 b2 m1 m2 → mem_rel b1 b2 (store m1 (b1 + k) v) (store m2 (b2 + k) v).
Proof.
  intros Hrel i. unfold store. rewrite Hrel.
  destruct (decide (i = k)) as [->|Hne].
  - by rewrite !bool_decide_eq_true_2.
  - rewrite !bool_decide_eq_false_2; [done|lia..].
Qed.

Lemma generate_n_rel n : ∀ b1 b2 k m1 m2 g,
  mem_rel b1 b2 m1 m2 →
  mem_rel b1 b2 (generate_n n (b1 + k) m1 g).1 (generate_n n (b2 + k) m2 g).1
  ∧ (generate_n n (b1 + k) m1 g).2 = (generate_n n (b2 + k) m2 g).2.
Proof.
  induction n as [|n IH]; intros b1 b2 k m1 m2 g Hrel; [done|].
  simpl. destruct (uniform_int_distribution 0 255 g) as [v g'].
  rewrite <-!Z.add_assoc. apply IH. by apply store_rel.
Qed.

Lemma stamp_rel n : ∀ (j : nat) b1 b2 v offset pattern masks m1 m2,
  mem_rel b1 b2 m1 m2 →
  mem_rel b1 b2 (stamp n j (b1 + v) offset pattern masks m1)
                (stamp n j (b2 + v) offset pattern masks m2).
Proof.
  induction n as [|n IH]; intros j b1 b2 v offset pattern masks m1 m2 Hrel; [done|].
  simpl. apply IH. destruct (is_wildcard _); [done|].
  rewrite <-!Z.add_assoc. by apply store_rel.
Qed.

Lemma stamp_all_rel count : ∀ hi b1 b2 v pattern masks m1 m2 g offsets,
  mem_rel b1 b2 m1 m2 →
  ∃ m1' m2' g' offsets',
    stamp_all count hi (b1 + v) pattern masks m1 g offsets = (m1', g', offsets')
    ∧ stamp_all count hi (b2 + v) pattern masks m2 g offsets = (m2', g', offsets')
    ∧ mem_rel b1 b2 m1' m2'.
Proof.
  induction count as [|count IH]; intros hi b1 b2 v pattern masks m1 m2 g offsets Hrel.
  - by exists m1, m2, g, offsets.
  - simpl. destruct (uniform_int_distribution 0 hi g) as [offset g'].
    apply IH. by apply stamp_rel.
Qed.

Lemma matches_at_rel b1 b2 v m1 m2 pattern masks i :
  mem_rel b1 b2 m1 m2 →
  matches_at m1 (b1 + v) pattern masks i = matches_at m2 (b2 + v) pattern masks i.
Proof.
  intros Hrel. unfold matches_at.
  induction (seq 0 (length masks)) as [|j js IH]; [done|].
  simpl. by rewrite IH, <-!Z.add_assoc, Hrel.
Qed.

(** The expected set in terms of window offsets: the offsets at which the
    pattern fits and matches. *)
Lemma elem_of_expected r m length pattern masks x :
  x ∈ shift_results r (FindPatternSimple m (data_ r) length pattern masks)
  ↔ ∃ i, 0 ≤ i ≤ length - Z.of_nat (List.length masks)
         ∧ matches_at m (data_ r) pattern masks i = true ∧ x = wrap64 i.
Proof.
  rewrite elem_of_shift_results. unfold FindPatternSimple. split.
  - intros (a & Ha & ->). apply list_elem_of_fmap in Ha as (i & -> & Hi).
    apply list_elem_of_filter in Hi as [Hm Hi]. apply elem_of_seqZ in Hi.
    exists i. split; [lia|]. split; [done|]. f_equal. lia.
  - intros (i & Hi & Hm & ->). exists (data_ r + i). split; [|f_equal; lia].
    apply list_elem_of_fmap. exists i. split; [done|].
    apply list_elem_of_filter. split; [done|]. apply elem_of_seqZ. lia.
Qed.

Lemma expected_rel r1 r2 b1 b2 v m1 m2 length pattern masks :
  mem_rel b1 b2 m1 m2 → data_ r1 = b1 + v → data_ r2 = b2 + v →
  shift_results r1 (FindPatternSimple m1 (b1 + v) length pattern masks)
  = shift_results r2 (FindPatternSimple m2 (b2 + v) length pattern masks).
Proof.
  intros Hrel Hd1 Hd2. apply set_eq. intros x.
  pose proof (elem_of_expected r1 m1 length pattern masks x) as H1.
  pose proof (elem_of_expected r2 m2 length pattern masks x) as H2.
  rewrite Hd1 in H1. rewrite Hd2 in H2. rewrite H1, H2.
  by setoid_rewrite (matches_at_rel b1 b2 v m1 m2 pattern masks _ Hrel).
Qed.

(** [generate] on two objects with the same content: both return or both
    give up, and the scenarios are the same. *)
Lemma generate_rel fuel r1 r2 :
  same_content r1 r2 →
  match generate fuel r1, generate fuel r2 with
  | Some (r1', o1), Some (r2', o2) =>
      same_content r1' r2' ∧ scenario_of r1' o1 = scenario_of r2' o2
  | None, None => True
  | _, _ => False
  end.
Proof.
  intros (Hfs & Hrng & Hp & Hm & Hrel). unfold generate.
  rewrite <-Hfs, <-Hrng, <-Hp, <-Hm.
  destruct (uniform_int_distribution 0 100 (rng_ r1)) as [variation g0].
  destruct (uniform_int_distribution 5 32 g0) as [pattern_length g1].
  destruct (mask_loop _ _ _ _ _ _) as [[[pattern masks] g2]|]; [|done]. simpl.
  destruct (uniform_int_distribution 2 10 g2) as [result_count g3].
  destruct (stamp_all_rel (Z.to_nat result_count)
              (wrap64 (wrap64 (full_size_ r1 - variation) - Z.of_nat (length pattern)))
              (full_data_ r1) (full_data_ r2) variation pattern masks
              (memory r1) (memory r2) g3 [] Hrel)
    as (m1' & m2' & g' & offsets' & -> & -> & Hrel').
  split.
  - by repeat split.
  - unfold scenario_of. simpl. f_equal; [lia|].
    by apply (expected_rel _ _ (full_data_ r1) (full_data_ r2)).
Qed.

(** The test loop on two objects with the same content logs the same
    scenarios, whatever the plugins and the clock. *)
Lemma run_tests_rel fuel n : ∀ pf1 pf2 r1 r2 t1 t2 ps1 ps2 log,
  same_content r1 r2 →
  match run_tests fuel n pf1 r1 t1 ps1 log, run_tests fuel n pf2 r2 t2 ps2 log with
  | Some (_, _, log1), Some (_, _, log2) => log1 = log2
  | None, None => True
  | _, _ => False
  end.
Proof.
  induction n as [|n IH]; intros pf1 pf2 r1 r2 t1 t2 ps1 ps2 log Hsame; [done|].
  simpl. pose proof (generate_rel fuel r1 r2 Hsame) as Hgen.
  destruct (generate fuel r1) as [[r1' o1]|], (generate fuel r2) as [[r2' o2]|];
    simpl; try done.
  destruct Hgen as [Hsame' ->].
  destruct (run_scanners pf1 r1' t1 ps1) as [ps1' t1'].
  destruct (run_scanners pf2 r2' t2 ps2) as [ps2' t2'].
  by apply IH.
Qed.

(** [reset] on two fresh objects with the same engine leaves the same
    content, wherever the two regions are allocated. *)
Lemma reset_new_rel pf1 pf2 seed1 seed2 region_data region_size :
  page_size pf1 = page_size pf2 →
  (create_twister pf1 seed1).1 = (create_twister pf2 seed2).1 →
  same_content (reset pf1 (scan_bench_new pf1 seed1) region_data region_size)
               (reset pf2 (scan_bench_new pf2 seed2) region_data region_size).
Proof.
  intros Hpage Hseed.
  assert (Hrng : rng_ (scan_bench_new pf1 seed1) = rng_ (scan_bench_new pf2 seed2)).
  { unfold scan_bench_new.
    pose proof (create_twister_resolved pf1 seed1) as H1.
    pose proof (create_twister_resolved pf2 seed2) as H2.
    destruct (create_twister pf1 seed1) as [s1 g1], (create_twister pf2 seed2) as [s2 g2].
    cbn [fst snd rng_] in *. congruence. }
  assert (Hmem : ∀ a1 a2, memory (scan_bench_new pf1 seed1) a1
                          = memory (scan_bench_new pf2 seed2) a2).
  { intros a1 a2. unfold scan_bench_new.
    by destruct (create_twister pf1 seed1), (create_twister pf2 seed2). }
  assert (Hpm : pattern_ (scan_bench_new pf1 seed1) = pattern_ (scan_bench_new pf2 seed2)
              ∧ masks_ (scan_bench_new pf1 seed1) = masks_ (scan_bench_new pf2 seed2)).
  { unfold scan_bench_new.
    by destruct (create_twister pf1 seed1), (create_twister pf2 seed2). }
  destruct Hpm as [Hpat Hmsk].
  destruct (reset_fields pf1 (scan_bench_new pf1 seed1) region_data region_size)
    as (_ & Hf1 & Hp1 & Hm1 & _ & Hc1).
  destruct (reset_fields pf2 (scan_bench_new pf2 seed2) region_data region_size)
    as (_ & Hf2 & Hp2 & Hm2 & _ & Hc2).
  set (r1 := reset pf1 _ _ _) in *. set (r2 := reset pf2 _ _ _) in *.
  assert (Hfs : full_size_ r1 = full_size_ r2) by (rewrite Hf1, Hf2, Hpage; done).
  split; [done|].
  destruct region_data as [content|].
  - destruct Hc1 as [Hc1 ->], Hc2 as [Hc2 ->].
    split; [done|]. split; [congruence|]. split; [congruence|].
    intros i. rewrite Hc1, Hc2, Hfs. unfold memcpy, memset.
    rewrite (Hmem (full_data_ r1 + i) (full_data_ r2 + i)).
    repeat case_bool_decide; try lia; try done.
    do 3 f_equal. lia.
  - rewrite Hfs, Hrng in Hc1.
    pose proof (generate_n_rel (Z.to_nat (full_size_ r2)) (full_data_ r1)
      (full_data_ r2) 0 _ _ (rng_ (scan_bench_new pf2 seed2))
      (λ i, Hmem (full_data_ r1 + i) (full_data_ r2 + i))) as [Hrel Hg].
    rewrite !Z.add_0_r in Hrel, Hg. rewrite <-Hc1, <-Hc2 in Hrel, Hg.
    cbn [fst snd] in Hrel, Hg.
    split; [done|]. split; [congruence|]. split; [congruence|done].
Qed.

(** Two runs whose resolved seeds agree generate the same scenarios. *)
Lemma scenarios_replay_resolved fuel pf1 pf2 seed1 seed2 argv1 PATTERNS1 PATTERNS2 :
  (create_twister pf1 seed1).1 = (create_twister pf2 seed2).1 →
  page_size pf1 = page_size pf2 →
  (∀ n, byte_buffer_ctor pf1 n = byte_buffer_ctor pf2 n) →
  scenarios_of (main_tests fuel pf1 seed1 argv1 PATTERNS1)
  = scenarios_of (main_tests fuel pf2 seed2 argv1 PATTERNS2).
Proof.
  intros Hres Hpage Hctor.
  unfold main_tests. generalize TEST_COUNT. intros n.
  destruct argv1 as [file|].
  - unfold reset_file, read_file. rewrite Hctor.
    destruct (byte_buffer_ctor pf2 _); [|done].
    assert (∃ buf, match file with ReadOk content => Some content | _ => Some [] end
                   = Some buf) as [buf ->].
    { destruct file; eauto. }
    cbn [mbind option_bind].
    pose proof (run_tests_rel fuel n pf1 pf2 _ _ 0%nat 0%nat
      PATTERNS1 PATTERNS2 []
      (reset_new_rel pf1 pf2 seed1 seed2 (byte_buffer_data buf)
         (Z.of_nat (length buf)) Hpage Hres)) as Hrun.
    destruct (run_tests fuel n pf1 _ _ _ _) as [[[? ?] ?]|],
             (run_tests fuel n pf2 _ _ _ _) as [[[? ?] ?]|]; by simplify_eq.
  - unfold reset_size. generalize REGION_SIZE. intros region_size.
    pose proof (run_tests_rel fuel n pf1 pf2 _ _ 0%nat 0%nat
      PATTERNS1 PATTERNS2 []
      (reset_new_rel pf1 pf2 seed1 seed2 None region_size Hpage Hres)) as Hrun.
    destruct (run_tests fuel n pf1 _ _ _ _) as [[[? ?] ?]|],
             (run_tests fuel n pf2 _ _ _ _) as [[[? ?] ?]|]; by simplify_eq.
Qed.

(** C3. Two runs started with the same non-zero seed on the same haystack
    source (the same file, or none) and the same page size produce the same
    sequence of scenarios --- window offsets and lengths, patterns, masks,
    implant offsets and expected sets --- whatever the entropy source, the
    address of the region, the clock and the registered plugins of each
    run are, and both runs end the same way; the seed the run logs is that
    seed, and the engine is built from it alone. *)
Theorem scenarios_replay fuel pf1 pf2 seed argv1 PATTERNS1 PATTERNS2 :
  seed ≠ 0 →
  page_size pf1 = page_size pf2 →
  (∀ n, byte_buffer_ctor pf1 n = byte_buffer_ctor pf2 n) →
  scenarios_of (main_tests fuel pf1 seed argv1 PATTERNS1)
  = scenarios_of (main_tests fuel pf2 seed argv1 PATTERNS2)
  ∧ seed_ (scan_bench_new pf1 seed) = seed
  ∧ rng_ (scan_bench_new pf1 seed)
    = mt19937_seed_seq (minstd_generate 624 (minstd_rand0_seed seed)).
Proof.
  intros Hseed Hpage Hctor. split; [|split].
  - apply scenarios_replay_resolved; [|done..].
    by rewrite !create_twister_nonzero.
  - unfold scan_bench_new.
    pose proof (create_twister_nonzero pf1 seed Hseed) as Hs.
    by destruct (create_twister pf1 seed).
  - unfold scan_bench_new.
    pose proof (create_twister_nonzero pf1 seed Hseed) as Hs.
    pose proof (create_twister_resolved pf1 seed) as Hg.
    destruct (create_twister pf1 seed) as [s g]. cbn [fst snd rng_] in *.
    by rewrite Hg, Hs.
Qed.

End ReplayProperties.

(** ** The statements on concrete inputs *)

(** The oracle on the example of the specification: ["AA"] with mask
    ["xx"] occurs in ["AAXXAAYYAA"] at the offsets 0, 4 and 8. *)
Example oracle_on_haystack :
  let data := full_data_ haystack_region + 246 in
  FindPatternSimple (memory haystack_region) data 10 [65; 65] ["x"; "x"]%char
  = [data; data + 4; data + 8].
Proof. vm_compute. reflexivity. Qed.

(** The scenario the script produces: the first pass is discarded, the
    occurrence stamped at 16 is overwritten by the one at 18. *)
Example generate_on_script :
  (λ '(reg, offsets),
     (data_ reg - full_data_ reg, size_ reg, pattern_ reg, masks_ reg,
      elements (expected_ reg), offsets)) <$> generate 2 retry_region
  = Some (3, 253, [65; 0; 66; 67; 0], ["x"; "?"; "x"; "x"; "?"]%char,
          [18; 200], [16; 18; 200])
  ∧ generate 1 retry_region = None.
Proof. split; vm_compute; reflexivity. Qed.

(** Two runs of two tests over the haystack, seeded with 7, on platforms
    that differ in the address of the region and in the entropy source,
    with different plugins: the same scenarios. *)
Example replay_on_two_platforms :
  two_tests (small_platform 4096 0) three_plugins
  = two_tests (small_platform 1048576 99) [throwing_plugin]
  ∧ (λ l : list scenario, (window_offset <$> l, implants <$> l))
      <$> two_tests (small_platform 4096 0) three_plugins
    = Some ([85; 61], [[158; 58; 117; 117; 67; 57; 69; 115];
                       [111; 111; 143; 19; 34; 51]]).
Proof. split; vm_compute; reflexivity. Qed.

(** [generate] returns on the script. *)
Lemma generate_on_script_returns :
  ∃ reg' offsets, generate 2 retry_region = Some (reg', offsets).
Proof.
  destruct (generate 2 retry_region) as [[reg' offsets]|] eqn:Hgen; [by eauto|].
  assert (Hsome : (if generate 2 retry_region is Some _ then true else false) = true)
    by (vm_compute; reflexivity).
  rewrite Hgen in Hsome. discriminate Hsome.
Defined.

(** C1 on three result lists for the expected set [{18, 200}]: a
    duplicate is harmless, a missing and an extra offset are rejected. *)
Lemma check_results_correct_witness :
  let data := data_ verifier_region in
  check_results verifier_region [data + 200; data + 18; data + 200] = true
  ∧ check_results verifier_region [data + 18] = false
  ∧ check_results verifier_region [data + 18; data + 200; data + 7] = false.
Proof.
  split; [|split].
  - apply check_results_correct. vm_compute. reflexivity.
  - apply (proj2 (proj2 (proj2 (check_results_correct verifier_region _)))).
    exists 200. vm_compute. split; [reflexivity|]. intros H. discriminate H.
  - apply (proj1 (proj2 (proj2 (check_results_correct verifier_region _)))).
    exists 7. vm_compute. split; [reflexivity|]. intros H. discriminate H.
Defined.

(** C3 for seed 7 and the haystack as the input file, on two platforms
    with different plugins. *)
Lemma scenarios_replay_witness :
  scenarios_of (main_tests 4 (small_platform 4096 0) 7
                  (Some (ReadOk haystack)) three_plugins)
  = scenarios_of (main_tests 4 (small_platform 1048576 99) 7
                    (Some (ReadOk haystack)) []).
Proof.
  assert (Hseed : 7 ≠ 0) by (intros H; discriminate H).
  exact (proj1 (scenarios_replay 4 (small_platform 4096 0) (small_platform 1048576 99) 7
           (Some (ReadOk haystack)) three_plugins [] Hseed eq_refl (λ n, eq_refl))).
Defined.

(** C4 for the throwing plugin between two others: the clock reads 1028
    before and 1063 after its call. *)
Lemma fault_is_counted_witness :
  Scan throwing_plugin (pattern_ retry_region) (masks_ retry_region)
    (memory retry_region) (data_ retry_region) (size_ retry_region) = Thrown
  ∧ ∃ p',
      (run_scanners (small_platform 4096 0) retry_region 0
         ([silent_plugin] ++ throwing_plugin :: [simple_plugin simple_new])).1
      = (run_scanners (small_platform 4096 0) retry_region 0 [silent_plugin]).1
          ++ p' :: (run_scanners (small_platform 4096 0) retry_region 4
                      [simple_plugin simple_new]).1
      ∧ Failed p' = 1 ∧ Elapsed p' = 35.
Proof.
  split; [reflexivity|].
  destruct (fault_is_counted (small_platform 4096 0) retry_region 0
              [silent_plugin] throwing_plugin [simple_plugin simple_new]
              eq_refl) as [(p' & Hrun & Hfailed & Helapsed & _) _].
  exists p'. split; [|split].
  - rewrite Hrun. reflexivity.
  - rewrite Hfailed. reflexivity.
  - rewrite Helapsed. reflexivity.
Defined.

(** C5 on the script, whose first pass draws wildcards only. *)
Lemma generate_never_all_wildcard_witness :
  ∃ reg' offsets, generate 2 retry_region = Some (reg', offsets)
    ∧ length (pattern_ reg') = length (masks_ reg')
    ∧ (∃ j : nat, masks_ reg' !! j = Some "x"%char)
    ∧ (∀ (j : nat) c, masks_ reg' !! j = Some c →
         c = "x"%char ∨ (c = "?"%char ∧ pattern_ reg' !! j = Some 0)).
Proof.
  destruct generate_on_script_returns as (reg' & offsets & Hgen).
  exists reg', offsets. split; [exact Hgen|].
  destruct (generate_never_all_wildcard 2 retry_region reg' offsets Hgen)
    as (Hlen & Hfixed & Hbytes & _).
  split; [exact Hlen|]. split; [exact Hfixed|exact Hbytes].
Defined.

(** C9 on the scenario of the script. *)
Lemma simple_is_oracle_witness :
  ∃ reg' offsets, generate 2 retry_region = Some (reg', offsets)
    ∧ Scan (simple_plugin simple_new) (pattern_ reg') (masks_ reg')
        (memory reg') (data_ reg') (size_ reg')
      = Returned (FindPatternSimple (memory reg') (data_ reg') (size_ reg')
                    (pattern_ reg') (masks_ reg'))
    ∧ check_results reg'
        (FindPatternSimple (memory reg') (data_ reg') (size_ reg')
           (pattern_ reg') (masks_ reg')) = true.
Proof.
  destruct generate_on_script_returns as (reg' & offsets & Hgen).
  exists reg', offsets. split; [exact Hgen|].
  destruct (simple_is_oracle 2 retry_region reg' offsets simple_new 0 0 Hgen)
    as (_ & Hscan & _ & Hcheck & _).
  split; [exact Hscan|exact Hcheck].
Defined.

(** C6 fails for a size within a page of [2^64]: with pages of 4096
    bytes, [reset] on the size [2^64 - 1] computes [full_size_ = 0], which
    is neither the size rounded up nor at least the size. *)
Lemma reset_layout_wraps :
  let reg' := reset page4k_platform fresh None (2 ^ 64 - 1) in
  full_size_ reg' = 0
  ∧ ¬ (2 ^ 64 - 1 ≤ full_size_ reg')
  ∧ full_size_ reg' ≠ round_up (2 ^ 64 - 1) (page_size page4k_platform)
  ∧ raw_size_ reg' = 8192.
Proof.
  vm_compute. split; [reflexivity|]. split; [|split; [|reflexivity]].
  - intros H. apply H. reflexivity.
  - intros H. discriminate H.
Qed.

(** The layout for ten bytes of content and pages of 4096 bytes. *)
Lemma reset_layout_witness :
  let reg' := reset page4k_platform fresh (Some haystack) 10 in
  full_size_ reg' = 4096 ∧ raw_size_ reg' = 12288
  ∧ full_data_ reg' = raw_data_ reg' + 4096
  ∧ protection reg' (raw_data_ reg') = Some PROT_NONE
  ∧ protection reg' (raw_data_ reg' + 12287) = Some PROT_NONE
  ∧ protection reg' (full_data_ reg' + 4095) = Some PROT_RW.
Proof.
  assert (Hpage : 0 < page_size page4k_platform) by reflexivity.
  assert (Hsize : 0 ≤ 10) by (intros H; discriminate H).
  assert (Hfit : round_up 10 (page_size page4k_platform)
                 + 2 * page_size page4k_platform < 2 ^ 64) by reflexivity.
  destruct (reset_layout page4k_platform fresh (Some haystack) 10 Hpage Hsize Hfit)
    as (Hfull & _ & _ & Hraw & _ & Hfd & Hfirst & Hlast & Hrw).
  intros reg'. fold reg' in Hfull, Hraw, Hfd, Hfirst, Hlast, Hrw.
  change (round_up 10 (page_size page4k_platform)) with 4096 in Hfull.
  change (page_size page4k_platform) with 4096 in Hraw, Hfd, Hfirst, Hlast.
  rewrite Hfull in Hraw, Hrw. rewrite Hraw in Hlast.
  split; [exact Hfull|]. split; [exact Hraw|].
  split; [exact Hfd|]. split; [|split].
  - apply Hfirst. lia.
  - apply Hlast. lia.
  - apply Hrw. lia.
Defined.

(** C7 for the haystack in a window of 256 bytes: 246 zero bytes, then
    the content. *)
Lemma reset_right_aligns_witness :
  let reg' := reset (small_platform 4096 0) (scan_bench_new (small_platform 4096 0) 1)
                (Some haystack) 10 in
  10 ≤ full_size_ reg'
  ∧ memory reg' (full_data_ reg' + 245) = 0
  ∧ Some (memory reg' (full_data_ reg' + (full_size_ reg' - 10) + 2)) = Some 88.
Proof.
  intros reg'.
  assert (Hle : Z.of_nat (length haystack) ≤ full_size_ reg')
    by (vm_compute; intros H; discriminate H).
  destruct (reset_right_aligns (small_platform 4096 0)
              (scan_bench_new (small_platform 4096 0) 1) haystack Hle)
    as (Hzero & Hcopy & _).
  fold reg' in Hzero, Hcopy.
  split; [exact Hle|]. split.
  - apply Hzero. vm_compute. split; [intros H|]; [discriminate H|reflexivity].
  - symmetry. apply (Hcopy 2%nat). simpl. lia.
Defined.


(** * Further properties *)

(** ** Seeding *)

Section SeedProperties.
Context {G : Type} `{!StdRandom G}.

(** The state of [minstd_rand0] after seeding is never 0. *)
Lemma minstd_rand0_seed_range s : 1 ≤ minstd_rand0_seed s < minstd_modulus.
Proof.
  unfold minstd_rand0_seed, minstd_modulus. case_bool_decide as Hz; [lia|].
  pose proof (Z.mod_pos_bound s 2147483647 ltac:(lia)). lia.
Qed.

(** A step of [minstd_rand0] keeps the state between 1 and the modulus:
    16807 is invertible modulo 2^31 - 1. *)
Lemma minstd_rand0_next_range x :
  1 ≤ x < minstd_modulus → 1 ≤ minstd_rand0_next x < minstd_modulus.
Proof.
  unfold minstd_rand0_next, minstd_modulus. intros Hx.
  pose proof (Z.mod_pos_bound (16807 * x) 2147483647 ltac:(lia)) as Hb.
  destruct (decide ((16807 * x) mod 2147483647 = 0)) as [Hz|]; [|lia].
  assert (Hinv : (1407677000 * ((16807 * x) mod 2147483647)) mod 2147483647
                 = x mod 2147483647).
  { rewrite Zmult_mod_idemp_r.
    replace (1407677000 * (16807 * x)) with ((1407677000 * 16807) * x) by lia.
    rewrite <-Zmult_mod_idemp_l.
    change ((1407677000 * 16807) mod 2147483647) with 1.
    by rewrite Z.mul_1_l. }
  rewrite Hz, Z.mul_0_r, Z.mod_0_l, Z.mod_small in Hinv by lia. lia.
Qed.

(** [std::generate] over [n] words yields [n] outputs of the engine. *)
Lemma minstd_generate_spec n : ∀ x,
  1 ≤ x < minstd_modulus →
  length (minstd_generate n x) = n
  ∧ Forall (λ w, 1 ≤ w < minstd_modulus) (minstd_generate n x).
Proof.
  induction n as [|n IH]; intros x Hx; simpl; [done|].
  pose proof (minstd_rand0_next_range x Hx) as Hn.
  destruct (IH _ Hn) as [Hlen Hall]. split; [by rewrite Hlen|by constructor].
Qed.

(** The words of the seed sequence are the successive states of
    [minstd_rand0]. *)
Lemma minstd_generate_lookup n : ∀ x (i : nat),
  (i < n)%nat →
  minstd_generate n x !! i = Some (Nat.iter (S i) minstd_rand0_next x).
Proof.
  induction n as [|n IH]; intros x i Hi; [lia|].
  destruct i as [|i]; [done|].
  cbn [minstd_generate lookup list_lookup]. rewrite IH by lia.
  by rewrite (Nat.iter_succ_r (S i)).
Qed.

(** X1. [create_twister] seeds the Mersenne twister from exactly 624 words,
    the [i]-th of which is the state of [minstd_rand0] after [i + 1] steps
    from the seeded state, a value between 1 and 2^31 - 2; a seed of 0 is
    replaced by the word of [std::random_device], reduced to 32 bits, and
    the engine is built from that word; any other seed is kept. *)
Theorem create_twister_words pf seed :
  (seed = 0 → (create_twister pf seed).1 = wrap32 (random_device pf)
               ∧ 0 ≤ (create_twister pf seed).1 < 2 ^ 32)
  ∧ (seed ≠ 0 → (create_twister pf seed).1 = seed)
  ∧ ∃ words,
      (create_twister pf seed).2 = mt19937_seed_seq words
      ∧ length words = 624%nat
      ∧ (∀ i : nat, (i < 624)%nat →
           words !! i
           = Some (Nat.iter (S i) minstd_rand0_next
                     (minstd_rand0_seed (create_twister pf seed).1)))
      ∧ Forall (λ w, 1 ≤ w ≤ 2147483646) words.
Proof.
  split; [|split].
  - intros ->. unfold create_twister. rewrite bool_decide_eq_true_2 by done.
    cbn [fst]. split; [done|]. apply Z.mod_pos_bound. lia.
  - apply create_twister_nonzero.
  - set (s := (create_twister pf seed).1).
    exists (minstd_generate 624 (minstd_rand0_seed s)).
    destruct (minstd_generate_spec 624 _ (minstd_rand0_seed_range s)) as [Hlen Hall].
    split; [apply create_twister_resolved|]. split; [done|]. split.
    + intros i Hi. by apply minstd_generate_lookup.
    + eapply Forall_impl; [exact Hall|]. unfold minstd_modulus. intros w ?.
      simpl in *. lia.
Qed.

(** The members of a new object. *)
Lemma scan_bench_new_fields pf seed :
  rng_ (scan_bench_new pf seed) = (create_twister pf seed).2
  ∧ seed_ (scan_bench_new pf seed) = (create_twister pf seed).1
  ∧ pattern_ (scan_bench_new pf seed) = []
  ∧ masks_ (scan_bench_new pf seed) = []
  ∧ (∀ a, memory (scan_bench_new pf seed) a = 0).
Proof. unfold scan_bench_new. by destruct (create_twister pf seed). Qed.

(** [reset] on two objects with the same generator, on platforms with the
    same page size, gives the same content; the allocation addresses may
    differ. *)
Lemma reset_rel pf1 pf2 (r1 r2 : scan_bench G) region_data region_size :
  page_size pf1 = page_size pf2 →
  rng_ r1 = rng_ r2 → pattern_ r1 = pattern_ r2 → masks_ r1 = masks_ r2 →
  (∀ a1 a2, memory r1 a1 = memory r2 a2) →
  same_content (reset pf1 r1 region_data region_size)
               (reset pf2 r2 region_data region_size).
Proof.
  intros Hpage Hrng Hpat Hmsk Hmem.
  destruct (reset_fields pf1 r1 region_data region_size)
    as (_ & Hf1 & Hp1 & Hm1 & _ & Hc1).
  destruct (reset_fields pf2 r2 region_data region_size)
    as (_ & Hf2 & Hp2 & Hm2 & _ & Hc2).
  set (r1' := reset pf1 _ _ _) in *. set (r2' := reset pf2 _ _ _) in *.
  assert (Hfs : full_size_ r1' = full_size_ r2') by (rewrite Hf1, Hf2, Hpage; done).
  split; [done|].
  destruct region_data as [content|].
  - destruct Hc1 as [Hc1 ->], Hc2 as [Hc2 ->].
    split; [done|]. split; [congruence|]. split; [congruence|].
    intros i. rewrite Hc1, Hc2, Hfs. unfold memcpy, memset.
    rewrite (Hmem (full_data_ r1' + i) (full_data_ r2' + i)).
    repeat case_bool_decide; try lia; try done.
    do 3 f_equal. lia.
  - rewrite Hfs, Hrng in Hc1.
    pose proof (generate_n_rel (Z.to_nat (full_size_ r2')) (full_data_ r1')
      (full_data_ r2') 0 _ _ (rng_ r2)
      (λ i, Hmem (full_data_ r1' + i) (full_data_ r2' + i))) as [Hrel Hg].
    rewrite !Z.add_0_r in Hrel, Hg. rewrite <-Hc1, <-Hc2 in Hrel, Hg.
    cbn [fst snd] in Hrel, Hg.
    split; [done|]. split; [congruence|]. split; [congruence|done].
Qed.

(** X2. Two non-zero seeds that agree modulo 2^31 - 1, the modulus by
    which [minstd_rand0] reduces its seed, build the same generator, and
    [main] generates the same scenarios for both, whatever the allocation
    address, the clock and the plugins: the seeds 1 and 2^31 cannot be
    told apart. *)
Theorem seeds_alias_modulo fuel pf1 pf2 seed1 seed2 argv1 PATTERNS1 PATTERNS2 :
  seed1 ≠ 0 → seed2 ≠ 0 →
  seed1 mod 2147483647 = seed2 mod 2147483647 →
  page_size pf1 = page_size pf2 →
  (∀ n, byte_buffer_ctor pf1 n = byte_buffer_ctor pf2 n) →
  rng_ (scan_bench_new pf1 seed1) = rng_ (scan_bench_new pf2 seed2)
  ∧ scenarios_of (main_tests fuel pf1 seed1 argv1 PATTERNS1)
    = scenarios_of (main_tests fuel pf2 seed2 argv1 PATTERNS2).
Proof.
  intros Hs1 Hs2 Hmod Hpage Hctor.
  destruct (scan_bench_new_fields pf1 seed1) as (Hg1 & _ & Hp1 & Hm1 & Hmem1).
  destruct (scan_bench_new_fields pf2 seed2) as (Hg2 & _ & Hp2 & Hm2 & Hmem2).
  assert (Hrng : rng_ (scan_bench_new pf1 seed1) = rng_ (scan_bench_new pf2 seed2)).
  { rewrite Hg1, Hg2, !create_twister_resolved, !create_twister_nonzero by done.
    unfold minstd_rand0_seed. by rewrite Hmod. }
  split; [done|].
  assert (Hreset : ∀ region_data region_size,
    same_content (reset pf1 (scan_bench_new pf1 seed1) region_data region_size)
                 (reset pf2 (scan_bench_new pf2 seed2) region_data region_size)).
  { intros. apply reset_rel; [done|done|congruence|congruence|].
    intros a1 a2. by rewrite Hmem1, Hmem2. }
  unfold main_tests. generalize TEST_COUNT. intros n.
  destruct argv1 as [file|].
  - unfold reset_file, read_file. rewrite Hctor.
    destruct (byte_buffer_ctor pf2 _); [|done].
    assert (∃ buf, match file with ReadOk content => Some content | _ => Some [] end
                   = Some buf) as [buf ->].
    { destruct file; eauto. }
    cbn [mbind option_bind].
    pose proof (run_tests_rel fuel n pf1 pf2 _ _ 0%nat 0%nat PATTERNS1 PATTERNS2 []
      (Hreset (byte_buffer_data buf) (Z.of_nat (length buf)))) as Hrun.
    destruct (run_tests fuel n pf1 _ _ _ _) as [[[? ?] ?]|],
             (run_tests fuel n pf2 _ _ _ _) as [[[? ?] ?]|]; by simplify_eq.
  - unfold reset_size. generalize REGION_SIZE. intros region_size.
    pose proof (run_tests_rel fuel n pf1 pf2 _ _ 0%nat 0%nat PATTERNS1 PATTERNS2 []
      (Hreset None region_size)) as Hrun.
    destruct (run_tests fuel n pf1 _ _ _ _) as [[[? ?] ?]|],
             (run_tests fuel n pf2 _ _ _ _) as [[[? ?] ?]|]; by simplify_eq.
Qed.
End SeedProperties.

(** ** Resetting the region *)

Section RegionExtra.
Context {G : Type} `{!StdRandom G}.
Implicit Types (reg : scan_bench G) (pf : platform).

(** [std::generate_n] over [n] bytes writes these bytes only, each a value
    in 0..255. *)
Lemma generate_n_spec n : ∀ dst m g a,
  (¬ (dst ≤ a < dst + Z.of_nat n) → (generate_n n dst m g).1 a = m a)
  ∧ (dst ≤ a < dst + Z.of_nat n → 0 ≤ (generate_n n dst m g).1 a < 256).
Proof.
  induction n as [|n IH]; intros dst m g a.
  - simpl. split; [done|lia].
  - simpl. destruct (uniform_int_distribution 0 255 g) as [v g'].
    destruct (IH (dst + 1) (store m dst (to_byte v)) g' a) as [Hout Hin].
    split.
    + intros Ha. rewrite Hout by lia. unfold store.
      rewrite bool_decide_eq_false_2; [done|lia].
    + intros Ha. destruct (decide (a = dst)) as [->|Hne]; [|apply Hin; lia].
      rewrite Hout by lia. unfold store, to_byte.
      rewrite bool_decide_eq_true_2 by done. apply Z.mod_pos_bound. lia.
Qed.

(** X3. [reset] writes inside the usable region only: every byte outside
    [full_data_ .. full_data_ + full_size_), the two guard pages included,
    is as before (for a reset from content, provided the content is not
    longer than the region); after a reset without content every byte of
    the usable region is a value in 0..255. *)
Theorem reset_writes_window_only pf reg region_data region_size :
  let reg' := reset pf reg region_data region_size in
  (is_Some region_data → 0 ≤ region_size ≤ full_size_ reg') →
  (∀ a, ¬ (full_data_ reg' ≤ a < full_data_ reg' + full_size_ reg') →
        memory reg' a = memory reg a)
  ∧ (region_data = None →
     ∀ a, full_data_ reg' ≤ a < full_data_ reg' + full_size_ reg' →
          0 ≤ memory reg' a < 256).
Proof.
  intros reg' Hsize.
  destruct (reset_fields pf reg region_data region_size)
    as (Hrange & _ & _ & _ & _ & Hmem).
  fold reg' in Hrange, Hmem. destruct region_data as [content|].
  - destruct Hmem as [Hmem _]. specialize (Hsize ltac:(eauto)).
    split; [|done]. intros a Ha. rewrite Hmem. unfold memcpy, memset.
    rewrite (wrap64_small (full_size_ reg' - region_size)) by lia.
    rewrite !bool_decide_eq_false_2; [done|lia..].
  - pose proof (generate_n_spec (Z.to_nat (full_size_ reg')) (full_data_ reg')
                  (memory reg) (rng_ reg)) as Hgen.
    rewrite <-Hmem in Hgen. cbn [fst] in Hgen. rewrite Z2Nat.id in Hgen by lia.
    split.
    + intros a Ha. by apply Hgen.
    + intros _ a Ha. by apply Hgen.
Qed.

(** Bytes of the window after [reset] on content. *)
Lemma reset_content_bytes pf reg content (i : nat) :
  let region_size := Z.of_nat (length content) in
  let reg' := reset pf reg (Some content) region_size in
  region_size ≤ full_size_ reg' →
  (i < Z.to_nat (full_size_ reg'))%nat →
  Some (memory reg' (full_data_ reg' + Z.of_nat i))
  = (replicate (Z.to_nat (full_size_ reg' - region_size)) 0 ++ content) !! i.
Proof.
  intros region_size reg' Hle Hi.
  destruct (reset_fields pf reg (Some content) region_size)
    as (Hrange & _ & _ & _ & _ & Hmem & _).
  fold reg' in Hrange, Hmem. rewrite Hmem.
  rewrite (wrap64_small (full_size_ reg' - region_size)) by lia.
  set (extra := full_size_ reg' - region_size) in *.
  unfold memcpy, memset.
  destruct (decide (Z.of_nat i < extra)) as [Hlt|Hge].
  - rewrite bool_decide_eq_false_2 by lia. rewrite bool_decide_eq_true_2 by lia.
    rewrite lookup_app_l by (rewrite length_replicate; lia).
    rewrite lookup_replicate_2; [done|lia].
  - rewrite bool_decide_eq_true_2 by (subst region_size; lia).
    rewrite lookup_app_r by (rewrite length_replicate; lia).
    rewrite length_replicate.
    replace (Z.to_nat (full_data_ reg' + Z.of_nat i - (full_data_ reg' + extra)))
      with (i - Z.to_nat extra)%nat by lia.
    destruct (lookup_lt_is_Some_2 content (i - Z.to_nat extra)) as [v ->]; [|done].
    subst extra region_size. lia.
Qed.

(** X4. Reading a file into the region is a round trip: for a file that can
    be read, whose buffer can be built and whose size rounded up to pages
    leaves room for the guard pages in [size_t], [reset] from the file
    returns, does not touch the generator, and the usable region read from
    its first to its last byte is the file content preceded by the zero
    bytes that fill it up to a page multiple. *)
Theorem reset_file_round_trip pf reg content :
  let size := Z.of_nat (length content) in
  byte_buffer_ctor pf size = true →
  0 < page_size pf →
  round_up size (page_size pf) + 2 * page_size pf < 2 ^ 64 →
  ∃ reg',
    reset_file pf reg (ReadOk content) = Some reg'
    ∧ rng_ reg' = rng_ reg
    ∧ full_size_ reg' = round_up size (page_size pf)
    ∧ memory reg' <$> seqZ (full_data_ reg') (full_size_ reg')
      = replicate (Z.to_nat (full_size_ reg' - size)) 0 ++ content.
Proof.
  intros size Hctor Hpage Hfit.
  destruct (round_up_spec size (page_size pf) Hpage) as [_ Hr].
  exists (reset pf reg (byte_buffer_data content) size).
  split.
  { unfold reset_file, read_file. cbn [tellg]. fold size.
    by rewrite (wrap64_small size), Hctor by (subst size; lia). }
  destruct (reset_full_size pf reg (byte_buffer_data content) size Hpage
              ltac:(subst size; lia) Hfit) as [Hfull _].
  destruct (reset_fields pf reg (byte_buffer_data content) size)
    as (_ & _ & _ & _ & _ & Hmem).
  set (reg' := reset pf reg (byte_buffer_data content) size) in *.
  destruct (decide (content = [])) as [Hnil|Hcons].
  - (* an empty file: the window has no bytes *)
    assert (Hzero : round_up size (page_size pf) = 0).
    { subst size content. unfold round_up. simpl. rewrite Z.div_small by lia. done. }
    assert (Hdata : byte_buffer_data content = None) by (by subst content).
    rewrite Hdata in Hmem. rewrite Hfull, Hzero in Hmem. simpl in Hmem.
    split; [by injection Hmem|]. split; [done|].
    rewrite Hfull, Hzero. by subst content.
  - assert (Hdata : byte_buffer_data content = Some content) by (by destruct content).
    subst reg'. rewrite Hdata in *. set (reg' := reset pf reg (Some content) size) in *.
    destruct Hmem as [_ Hrng].
    split; [done|]. split; [done|].
    apply list_eq. intros i. rewrite list_lookup_fmap.
    destruct (decide (i < Z.to_nat (full_size_ reg'))%nat) as [Hi|Hi].
    + rewrite lookup_seqZ_lt by lia. cbn [fmap option_fmap option_map].
      apply (reset_content_bytes pf reg content i); [subst reg' size; lia|done].
    + rewrite lookup_seqZ_ge by lia. cbn [fmap option_fmap option_map]. symmetry. apply lookup_ge_None.
      rewrite length_app, length_replicate. subst reg' size. lia.
Qed.
End RegionExtra.

(** ** The verifier *)

Section VerifierExtra.
Context {G : Type} `{!StdRandom G}.
Implicit Types (reg : scan_bench G).

(** X5. [shift_results] undoes the addressing of the window: the addresses
    [data() + o] of offsets [o] in [size_t] range are shifted to exactly the
    set of these offsets, and without repeated offsets the set has as many
    elements as there were addresses. *)
Theorem shift_results_round_trip reg (offsets : list Z) :
  Forall (λ o, 0 ≤ o < 2 ^ 64) offsets →
  shift_results reg ((λ o, data_ reg + o) <$> offsets) = list_to_set offsets
  ∧ (NoDup offsets →
     size (shift_results reg ((λ o, data_ reg + o) <$> offsets)) = length offsets).
Proof.
  intros Hrange. rewrite Forall_forall in Hrange.
  assert (Heq : shift_results reg ((λ o, data_ reg + o) <$> offsets)
                = list_to_set offsets).
  { apply set_eq. intros x. rewrite elem_of_shift_results, elem_of_list_to_set.
    split.
    - intros (a & Ha & ->). apply list_elem_of_fmap in Ha as (o & -> & Ho).
      replace (data_ reg + o - data_ reg) with o by lia.
      by rewrite wrap64_small by (by apply Hrange).
    - intros Hx. exists (data_ reg + x). split.
      + apply list_elem_of_fmap. by exists x.
      + replace (data_ reg + x - data_ reg) with x by lia.
        by rewrite wrap64_small by (by apply Hrange). }
  split; [done|]. intros Hnd. rewrite Heq. by apply size_list_to_set.
Qed.

(** X6. The verdict of [check_results] depends on the set of reported
    addresses only: two result lists with the same elements, in any order
    and with any repetitions, have the same shifted set and the same
    verdict. *)
Theorem check_results_ignores_order reg (results1 results2 : list Z) :
  (∀ a, a ∈ results1 ↔ a ∈ results2) →
  shift_results reg results1 = shift_results reg results2
  ∧ check_results reg results1 = check_results reg results2.
Proof.
  intros Hsame.
  assert (Heq : shift_results reg results1 = shift_results reg results2).
  { apply set_eq. intros x. rewrite !elem_of_shift_results.
    split; intros (a & Ha & ->); exists a; (split; [by apply Hsame|done]). }
  split; [done|]. unfold check_results. by rewrite Heq.
Qed.

(** X7. An empty result list is accepted exactly when the expected set is
    empty; and when the expected set is empty, the empty list is the only
    result list that is accepted. *)
Theorem check_results_empty reg (results : list Z) :
  (check_results reg [] = true ↔ expected_ reg = ∅)
  ∧ (expected_ reg = ∅ → (check_results reg results = true ↔ results = [])).
Proof.
  pose proof (check_results_true_iff reg) as Hiff.
  split.
  - rewrite Hiff. by split.
  - intros Hempty. rewrite Hiff, Hempty. split; [|by intros ->].
    intros Hs. destruct results as [|r results]; [done|].
    assert (Hin : wrap64 (r - data_ reg) ∈ shift_results reg (r :: results)).
    { apply elem_of_shift_results. exists r. split; [left|done]. }
    rewrite Hs in Hin. by apply not_elem_of_empty in Hin.
Qed.
End VerifierExtra.

(** ** The scenarios generated *)

Section GenerateExtra.
Context {G : Type} `{!StdRandom G}.
Implicit Types (reg : scan_bench G) (pattern : list Z) (masks : list ascii)
  (m : Z → Z) (g : G).

(** The steps of [generate], read off a call that returned. *)
Lemma generate_inv fuel reg reg' offsets :
  generate fuel reg = Some (reg', offsets) →
  ∃ variation g0 pattern_length g1 g2 result_count g3,
    uniform_int_distribution 0 100 (rng_ reg) = (variation, g0)
    ∧ uniform_int_distribution 5 32 g0 = (pattern_length, g1)
    ∧ mask_loop fuel (Z.to_nat pattern_length)
        (resize (Z.to_nat pattern_length) 0 (pattern_ reg))
        (resize (Z.to_nat pattern_length) "000"%char (masks_ reg)) true g1
      = Some (pattern_ reg', masks_ reg', g2)
    ∧ uniform_int_distribution 2 10 g2 = (result_count, g3)
    ∧ stamp_all (Z.to_nat result_count)
        (wrap64 (size_ reg' - Z.of_nat (length (pattern_ reg'))))
        (data_ reg') (pattern_ reg') (masks_ reg') (memory reg) g3 []
      = (memory reg', rng_ reg', offsets)
    ∧ data_ reg' = full_data_ reg + variation
    ∧ size_ reg' = wrap64 (full_size_ reg - variation)
    ∧ raw_data_ reg' = raw_data_ reg ∧ raw_size_ reg' = raw_size_ reg
    ∧ full_data_ reg' = full_data_ reg ∧ full_size_ reg' = full_size_ reg
    ∧ seed_ reg' = seed_ reg ∧ protection reg' = protection reg.
Proof.
  unfold generate.
  destruct (uniform_int_distribution 0 100 (rng_ reg)) as [variation g0] eqn:Hv.
  destruct (uniform_int_distribution 5 32 g0) as [pattern_length g1] eqn:Hl.
  destruct (mask_loop _ _ _ _ _ _) as [[[pattern masks] g2]|] eqn:Hloop; [|done].
  cbn [mbind option_bind].
  destruct (uniform_int_distribution 2 10 g2) as [result_count g3] eqn:Hc.
  destruct (stamp_all _ _ _ _ _ _ _ _) as [[m g4] offs] eqn:Hstamp.
  intros [= <- <-]. cbn.
  exists variation, g0, pattern_length, g1, g2, result_count, g3.
  split_and!; done.
Qed.

(** One occurrence stamped at an offset that keeps it inside
    [data .. data + limit - 1]: nothing outside is written, and the
    non-wildcard positions hold the pattern. *)
Lemma stamp_inside data offset limit pattern masks m :
  0 ≤ offset → offset + Z.of_nat (length pattern) ≤ limit → limit ≤ 2 ^ 64 →
  (∀ a, ¬ (data ≤ a < data + limit) →
     stamp (length pattern) 0 data offset pattern masks m a = m a)
  ∧ (∀ (j : nat) c, (j < length pattern)%nat → masks !! j = Some c → c ≠ "?"%char →
       stamp (length pattern) 0 data offset pattern masks m
         (data + offset + Z.of_nat j) = default 0 (pattern !! j)).
Proof.
  intros Hoff Hfit Hlimit. split.
  - intros a Ha. apply stamp_frame_from. intros k Hk Hak. exfalso.
    rewrite stamp_addr_plain in Hak by lia. lia.
  - intros j c Hj Hc Hne. rewrite <-(stamp_addr_plain data offset j) by lia.
    apply (stamp_written_from _ 0 _ _ _ _ _ j c); [lia|done|done|].
    intros k' Hk'. rewrite !stamp_addr_plain by lia. lia.
Qed.

(** The outer stamping loop, with draws in range. *)
Lemma stamp_all_spec (Hdraw : draws_in_range G) count :
  ∀ hi data pattern masks m g offsets m' g' offsets',
  stamp_all count hi data pattern masks m g offsets = (m', g', offsets') →
  0 ≤ hi → hi + Z.of_nat (length pattern) ≤ 2 ^ 64 →
  ∃ new,
    offsets' = offsets ++ new ∧ length new = count
    ∧ Forall (λ o, 0 ≤ o ≤ hi) new
    ∧ (∀ a, ¬ (data ≤ a < data + hi + Z.of_nat (length pattern)) → m' a = m a)
    ∧ (∀ o (j : nat) c, last new = Some o →
         (j < length pattern)%nat → masks !! j = Some c → c ≠ "?"%char →
         m' (data + o + Z.of_nat j) = default 0 (pattern !! j)).
Proof.
  induction count as [|count IH];
    intros hi data pattern masks m g offsets m' g' offsets' Hstamp Hhi Hfit.
  - simpl in Hstamp. injection Hstamp as <- <- <-. exists [].
    rewrite app_nil_r. by repeat split.
  - simpl in Hstamp.
    pose proof (Hdraw 0 hi g Hhi) as Hoff.
    destruct (uniform_int_distribution 0 hi g) as [offset g1]. cbn [fst] in Hoff.
    destruct (stamp_inside data offset (hi + Z.of_nat (length pattern))
                pattern masks m ltac:(lia) ltac:(lia) Hfit) as [Hframe Hwritten].
    pose proof Hstamp as Hrest.
    apply IH in Hstamp as (new & -> & Hlen & Hall & Hout & Hlast); [|done..].
    exists (offset :: new). split; [by rewrite <-app_assoc|].
    split; [by rewrite <-Hlen|]. split; [by constructor|]. split.
    + intros a Ha. rewrite Hout by lia. apply Hframe. lia.
    + intros o j c Ho Hj Hc Hne. destruct new as [|o' new'].
      * simpl in Ho. injection Ho as <-. simpl in Hlen. subst count.
        simpl in Hrest. injection Hrest as <- _ _. by eapply Hwritten.
      * by apply (Hlast o j c).
Qed.

(** What [generate] does on a region that holds the largest window offset
    and the longest pattern, with draws in range. *)
Lemma generate_spec (Hdraw : draws_in_range G) fuel reg reg' offsets :
  generate fuel reg = Some (reg', offsets) →
  132 ≤ full_size_ reg < 2 ^ 64 →
  (full_data_ reg ≤ data_ reg' ≤ full_data_ reg + 100
   ∧ data_ reg' + size_ reg' = full_data_ reg + full_size_ reg)
  ∧ (5 ≤ length (pattern_ reg') ≤ 32)%nat
  ∧ (2 ≤ length offsets ≤ 10)%nat
  ∧ Forall (λ o, 0 ≤ o ∧ o + Z.of_nat (length (pattern_ reg')) ≤ size_ reg') offsets
  ∧ (∀ a, ¬ (data_ reg' ≤ a < data_ reg' + size_ reg') → memory reg' a = memory reg a)
  ∧ (∀ o (j : nat), last offsets = Some o → masks_ reg' !! j = Some "x"%char →
       pattern_ reg' !! j = Some (memory reg' (data_ reg' + o + Z.of_nat j)))
  ∧ (full_data_ reg' = full_data_ reg ∧ full_size_ reg' = full_size_ reg
     ∧ raw_data_ reg' = raw_data_ reg ∧ raw_size_ reg' = raw_size_ reg
     ∧ protection reg' = protection reg).
Proof.
  intros Hgen Hfull.
  destruct (generate_inv _ _ _ _ Hgen)
    as (variation & g0 & plen & g1 & g2 & count & g3 & Hv & Hl & Hloop & Hc
        & Hstamp & Hdata & Hsize & Hrd & Hrs & Hfd & Hfs & _ & Hprot).
  pose proof (Hdraw 0 100 (rng_ reg) ltac:(lia)) as Hvr. rewrite Hv in Hvr.
  pose proof (Hdraw 5 32 g0 ltac:(lia)) as Hlr. rewrite Hl in Hlr.
  pose proof (Hdraw 2 10 g2 ltac:(lia)) as Hcr. rewrite Hc in Hcr.
  cbn [fst] in Hvr, Hlr, Hcr.
  apply mask_loop_spec in Hloop as (Hplen & Hmlen & _ & _);
    [|by rewrite length_resize..].
  rewrite wrap64_small in Hsize by lia.
  rewrite wrap64_small in Hstamp by lia.
  apply (stamp_all_spec Hdraw) in Hstamp as (new & Hnew & Hlen & Hall & Hout & Hlast);
    [|lia..].
  simpl in Hnew. subst new.
  split; [lia|]. split; [lia|]. split; [lia|]. split.
  { eapply Forall_impl; [exact Hall|]. intros o Ho. simpl in Ho. lia. }
  split.
  { intros a Ha. apply Hout. lia. }
  split; [|done].
  intros o j Ho Hj.
  assert (Hjlt : (j < length (pattern_ reg'))%nat).
  { rewrite Hplen, <-Hmlen. by eapply lookup_lt_Some. }
  rewrite (Hlast o j "x"%char Ho Hjlt Hj ltac:(done)).
  by destruct (lookup_lt_is_Some_2 (pattern_ reg') j Hjlt) as [v ->].
Qed.

(** X8. On a usable region of at least 132 bytes (100 for the window offset,
    32 for the longest pattern), with draws that respect their ranges, the
    scenario [generate] returns has a window that starts at most 100 bytes
    into the region and ends exactly at its end, a pattern of 5 to 32
    bytes, and 2 to 10 implants each of which lies entirely inside the
    window. *)
Theorem generate_window (Hdraw : draws_in_range G) fuel reg reg' offsets :
  generate fuel reg = Some (reg', offsets) →
  132 ≤ full_size_ reg < 2 ^ 64 →
  (full_data_ reg ≤ data_ reg' ≤ full_data_ reg + 100
   ∧ data_ reg' + size_ reg' = full_data_ reg + full_size_ reg)
  ∧ (5 ≤ length (pattern_ reg') ≤ 32)%nat
  ∧ (2 ≤ length offsets ≤ 10)%nat
  ∧ Forall (λ o, 0 ≤ o ∧ o + Z.of_nat (length (pattern_ reg')) ≤ size_ reg') offsets.
Proof.
  intros Hgen Hfull.
  destruct (generate_spec Hdraw _ _ _ _ Hgen Hfull) as (H1 & H2 & H3 & H4 & _).
  done.
Qed.

(** X9. Under the same conditions [generate] writes inside the usable
    region only: every byte outside it, the guard pages included, is as
    before, and the layout of the region (usable and raw base and size)
    and the page protection are unchanged. *)
Theorem generate_writes_window_only (Hdraw : draws_in_range G) fuel reg reg' offsets :
  generate fuel reg = Some (reg', offsets) →
  132 ≤ full_size_ reg < 2 ^ 64 →
  (∀ a, ¬ (full_data_ reg ≤ a < full_data_ reg + full_size_ reg) →
        memory reg' a = memory reg a)
  ∧ full_data_ reg' = full_data_ reg ∧ full_size_ reg' = full_size_ reg
  ∧ raw_data_ reg' = raw_data_ reg ∧ raw_size_ reg' = raw_size_ reg
  ∧ protection reg' = protection reg.
Proof.
  intros Hgen Hfull.
  destruct (generate_spec Hdraw _ _ _ _ Hgen Hfull)
    as ((Hdata & Hend) & _ & _ & _ & Hout & _ & Hlayout).
  split; [|done]. intros a Ha. apply Hout. lia.
Qed.

(** X10. Under the same conditions the implant written last is intact when
    [generate] returns: at its offset, which lies inside the window, every
    fixed position of the pattern holds the pattern byte. (Earlier
    implants may have been overwritten by later ones.) *)
Theorem generate_last_implant_intact (Hdraw : draws_in_range G)
    fuel reg reg' offsets :
  generate fuel reg = Some (reg', offsets) →
  132 ≤ full_size_ reg < 2 ^ 64 →
  ∃ o, last offsets = Some o
    ∧ 0 ≤ o ∧ o + Z.of_nat (length (pattern_ reg')) ≤ size_ reg'
    ∧ ∀ j : nat, masks_ reg' !! j = Some "x"%char →
        pattern_ reg' !! j = Some (memory reg' (data_ reg' + o + Z.of_nat j)).
Proof.
  intros Hgen Hfull.
  destruct (generate_spec Hdraw _ _ _ _ Hgen Hfull)
    as (_ & _ & Hcount & Hall & _ & Hlast & _).
  destruct (last offsets) as [o|] eqn:Ho.
  - exists o. split; [done|].
    assert (Hin : o ∈ offsets).
    { apply last_Some in Ho as [l' ->]. apply elem_of_app. right. by left. }
    rewrite Forall_forall in Hall. destruct (Hall o Hin) as [Ho0 Ho1].
    split; [done|]. split; [done|]. intros j Hj. by apply Hlast.
  - apply last_None in Ho. subst offsets. simpl in Hcount. lia.
Qed.

End GenerateExtra.

(** ** The test loop and the report *)

Section RunExtra.
Context {G : Type} `{!StdRandom G}.
Implicit Types (reg : scan_bench G) (p : pattern_scanner)
  (ps : list pattern_scanner).

(** Addition modulo 2^64 absorbs an inner reduction. *)
Lemma wrap64_add_l a b : wrap64 (wrap64 a + b) = wrap64 (a + b).
Proof. unfold wrap64. by rewrite Zplus_mod_idemp_l. Qed.

(** What one execution of the loop body does to a plugin. *)
Lemma run_scanner_spec reg start_clock end_clock p :
  let p' := run_scanner reg start_clock end_clock p in
  GetName p' = GetName p ∧ Scan p' = Scan p
  ∧ Elapsed p' = wrap64 (Elapsed p + wrap64 (end_clock - start_clock))
  ∧ (Failed p' = Failed p ∨ Failed p' = wrap64 (Failed p + 1))
  ∧ (Scan p (pattern_ reg) (masks_ reg) (memory reg) (data_ reg) (size_ reg) = Thrown →
     Failed p' = wrap64 (Failed p + 1)).
Proof.
  unfold run_scanner. simpl. split_and!; try done.
  - destruct (Scan p _ _ _ _ _); [destruct (check_results _ _)|]; simpl; auto.
  - by intros ->.
Qed.

(** One test: the plugin at position [i] after it. *)
Lemma run_tests_S fuel n pf reg tick ps log r :
  run_tests fuel (S n) pf reg tick ps log = Some r →
  ∃ reg1 offsets,
    generate fuel reg = Some (reg1, offsets)
    ∧ run_tests fuel n pf reg1 (tick + 2 * length ps)
        (run_scanners pf reg1 tick ps).1 (log ++ [scenario_of reg1 offsets])
      = Some r.
Proof.
  cbn [run_tests]. destruct (generate fuel reg) as [[reg1 offsets]|]; [|done].
  cbn [mbind option_bind]. intros Hrun. exists reg1, offsets. split; [done|].
  destruct (run_scanners_length pf reg1 tick ps) as [_ Ht].
  destruct (run_scanners pf reg1 tick ps) as [ps1 t1]. cbn [fst snd] in *.
  by subst t1.
Qed.

(** The plugin at position [i] through [n] tests. *)
Lemma run_tests_plugin fuel n : ∀ pf reg tick ps log reg' ps' log' (i : nat) p,
  run_tests fuel n pf reg tick ps log = Some (reg', ps', log') →
  ps !! i = Some p →
  ∃ p',
    ps' !! i = Some p' ∧ GetName p' = GetName p ∧ Scan p' = Scan p
    ∧ (0 ≤ Elapsed p < 2 ^ 64 →
       Elapsed p' = wrap64 (Elapsed p + cycles_measured pf tick (length ps) i n))
    ∧ (0 ≤ Failed p → Failed p + Z.of_nat n < 2 ^ 64 →
       Failed p ≤ Failed p' ≤ Failed p + Z.of_nat n)
    ∧ ((∀ pattern masks m data length, Scan p pattern masks m data length = Thrown) →
       0 ≤ Failed p → Failed p + Z.of_nat n < 2 ^ 64 →
       Failed p' = Failed p + Z.of_nat n)
    ∧ (∀ self, Scan p = Scan (simple_plugin self) → Failed p' = Failed p).
Proof.
  induction n as [|n IH]; intros pf reg tick ps log reg' ps' log' i p Hrun Hi.
  - simpl in Hrun. injection Hrun as <- <- <-. exists p.
    split_and!; try done; try lia.
    intros He. simpl. rewrite Z.add_0_r. by rewrite wrap64_small.
  - apply run_tests_S in Hrun as (reg1 & offsets & Hgen & Hrun).
    pose proof (run_scanners_lookup pf reg1 ps tick i) as Hp1. rewrite Hi in Hp1.
    cbn [fmap option_fmap option_map] in Hp1.
    set (p1 := run_scanner reg1 (rdtsc pf (tick + 2 * i)) (rdtsc pf (S (tick + 2 * i))) p) in *.
    destruct (run_scanner_spec reg1 (rdtsc pf (tick + 2 * i))
                (rdtsc pf (S (tick + 2 * i))) p)
      as (Hname & Hscan & Helapsed & Hfailed & Hthrown).
    fold p1 in Hname, Hscan, Helapsed, Hfailed, Hthrown.
    destruct (IH _ _ _ _ _ _ _ _ i p1 Hrun Hp1)
      as (p' & Hp' & Hname' & Hscan' & Helapsed' & Hbound' & Hthrown' & Hsimple').
    destruct (run_scanners_length pf reg1 tick ps) as [Hlen _].
    exists p'. split; [done|]. split; [congruence|]. split; [congruence|].
    split; [|split; [|split]].
    + intros He. rewrite Helapsed' by (rewrite Helapsed; apply wrap64_range).
      rewrite Helapsed, Hlen. cbn [cycles_measured].
      rewrite wrap64_add_l. f_equal. lia.
    + intros Hf0 Hfn.
      assert (Hf1 : Failed p ≤ Failed p1 ≤ Failed p + 1).
      { destruct Hfailed as [->| ->]; [lia|]. rewrite wrap64_small; lia. }
      specialize (Hbound' ltac:(lia) ltac:(lia)). lia.
    + intros Hall Hf0 Hfn.
      assert (Hf1 : Failed p1 = Failed p + 1).
      { rewrite Hthrown by apply Hall. rewrite wrap64_small; lia. }
      rewrite Hthrown'; [lia| |lia|lia].
      intros. rewrite Hscan. apply Hall.
    + intros self Hself.
      rewrite (Hsimple' self) by congruence.
      subst p1. unfold run_scanner. cbn [Failed set_counters].
      rewrite Hself. cbn [Scan simple_plugin simple_Scan simple_Init CurrentPattern
                            CurrentMask mbind option_bind].
      assert (Hok : check_results reg1
                (FindPatternSimple (memory reg1) (data_ reg1) (size_ reg1)
                   (pattern_ reg1) (masks_ reg1)) = true).
      { apply check_results_true_iff. symmetry. by eapply generate_expected. }
      by rewrite Hok.
Qed.

(** The test loop as a whole. *)
Lemma run_tests_shape fuel n : ∀ pf reg tick ps log reg' ps' log',
  run_tests fuel n pf reg tick ps log = Some (reg', ps', log') →
  length ps' = length ps
  ∧ (∃ new, log' = log ++ new ∧ length new = n)
  ∧ full_data_ reg' = full_data_ reg ∧ full_size_ reg' = full_size_ reg
  ∧ raw_data_ reg' = raw_data_ reg ∧ raw_size_ reg' = raw_size_ reg
  ∧ seed_ reg' = seed_ reg ∧ protection reg' = protection reg.
Proof.
  induction n as [|n IH]; intros pf reg tick ps log reg' ps' log' Hrun.
  - simpl in Hrun. injection Hrun as <- <- <-. split; [done|]. split; [|done].
    exists []. by rewrite app_nil_r.
  - apply run_tests_S in Hrun as (reg1 & offsets & Hgen & Hrun).
    apply IH in Hrun as (Hlen & (new & -> & Hnew) & Hfd & Hfs & Hrd & Hrs & Hseed & Hprot).
    destruct (run_scanners_length pf reg1 tick ps) as [Hlen1 _].
    apply generate_inv in Hgen
      as (? & ? & ? & ? & ? & ? & ? & _ & _ & _ & _ & _ & _ & _
          & Hrd1 & Hrs1 & Hfd1 & Hfs1 & Hseed1 & Hprot1).
    split; [congruence|]. split.
    { exists (scenario_of reg1 offsets :: new). split; [by rewrite <-app_assoc|].
      simpl. by rewrite Hnew. }
    split_and!; congruence.
Qed.

(** The plugins keep their order, names and scan operations. *)
Lemma run_tests_names fuel n pf reg tick ps log reg' ps' log' :
  run_tests fuel n pf reg tick ps log = Some (reg', ps', log') →
  GetName <$> ps' = GetName <$> ps ∧ Scan <$> ps' = Scan <$> ps.
Proof.
  intros Hrun.
  destruct (run_tests_shape _ _ _ _ _ _ _ _ _ _ Hrun) as (Hlen & _).
  assert (Hfields : ∀ i : nat,
    (GetName <$> ps') !! i = (GetName <$> ps) !! i
    ∧ (Scan <$> ps') !! i = (Scan <$> ps) !! i).
  { intros i. rewrite !list_lookup_fmap.
    destruct (ps !! i) as [p|] eqn:Hi.
    - destruct (run_tests_plugin _ _ _ _ _ _ _ _ _ _ i p Hrun Hi)
        as (p' & -> & Hname & Hscan & _). simpl. by rewrite Hname, Hscan.
    - apply lookup_ge_None in Hi. rewrite <-Hlen in Hi.
      apply lookup_ge_None in Hi. by rewrite Hi. }
  split; apply list_eq; apply Hfields.
Qed.

(** X12. The test loop of [main] keeps what it does not measure: after any
    number of tests the plugins stand in their registered order with their
    names and scan functions, one scenario was generated per test, and the
    layout of the region, the seed and the page protection are as after
    [reset]. *)
Theorem run_tests_schedule fuel n pf reg tick ps log reg' ps' log' :
  run_tests fuel n pf reg tick ps log = Some (reg', ps', log') →
  GetName <$> ps' = GetName <$> ps
  ∧ Scan <$> ps' = Scan <$> ps
  ∧ (∃ new, log' = log ++ new ∧ length new = n)
  ∧ full_data_ reg' = full_data_ reg ∧ full_size_ reg' = full_size_ reg
  ∧ raw_data_ reg' = raw_data_ reg ∧ raw_size_ reg' = raw_size_ reg
  ∧ seed_ reg' = seed_ reg ∧ protection reg' = protection reg.
Proof.
  intros Hrun.
  destruct (run_tests_shape _ _ _ _ _ _ _ _ _ _ Hrun) as (_ & Hlog & Hrest).
  destruct (run_tests_names _ _ _ _ _ _ _ _ _ _ Hrun) as [Hnames Hscans].
  done.
Qed.

(** X13. A run of [main] that finishes ranks exactly the registered
    plugins: for any sorting function meeting the contract of [std::sort],
    the names in the ranking are a permutation of the registered names,
    the ranking is a permutation of the plugins as the test loop left
    them, and [TEST_COUNT] scenarios were generated. *)
Theorem main_reports_every_plugin
    (std_sort : (pattern_scanner → pattern_scanner → bool) →
                list pattern_scanner → list pattern_scanner)
    fuel pf seed argv1 PATTERNS ranked :
  sort_contract std_sort →
  main std_sort fuel pf seed argv1 PATTERNS = Finished ranked →
  GetName <$> ranked ≡ₚ GetName <$> PATTERNS
  ∧ length ranked = length PATTERNS
  ∧ ∃ reg ps log,
      main_tests fuel pf seed argv1 PATTERNS = Finished (reg, ps, log)
      ∧ ranked ≡ₚ ps ∧ length log = TEST_COUNT.
Proof.
  intros Hsort Hmain.
  apply main_ranking in Hmain as (reg & ps & log & Htests & ->).
  destruct (Hsort rank_less ps rank_less_strict_weak_order) as [Hperm _].
  assert (Hrun : ∃ reg0, run_tests fuel TEST_COUNT pf reg0 0 PATTERNS []
                         = Some (reg, ps, log)).
  { revert Htests. unfold main_tests. generalize TEST_COUNT. intros n.
    destruct (match argv1 with Some _ => _ | None => _ end) as [reg0|]; [|done].
    destruct (run_tests fuel n pf reg0 0 PATTERNS []) as [r|] eqn:Hrun; [|done].
    intros [= ->]. by exists reg0. }
  destruct Hrun as [reg0 Hrun].
  destruct (run_tests_shape _ _ _ _ _ _ _ _ _ _ Hrun) as (Hlen & (new & -> & Hnew) & _).
  destruct (run_tests_names _ _ _ _ _ _ _ _ _ _ Hrun) as [Hnames _].
  split; [by rewrite Hperm, Hnames|]. split; [by rewrite Hperm|].
  exists reg, ps, ([] ++ new). done.
Qed.

(** X14. A plugin's failure counter grows by at most one per test: after
    [n] tests it lies between its initial value and that value plus [n]
    (as long as this does not exceed the 64-bit range), and it is the
    initial value plus [n] for a plugin whose every scan throws. *)
Theorem failures_bounded_by_tests fuel n pf reg tick ps log reg' ps' log' (i : nat) p p' :
  run_tests fuel n pf reg tick ps log = Some (reg', ps', log') →
  ps !! i = Some p → ps' !! i = Some p' →
  0 ≤ Failed p → Failed p + Z.of_nat n < 2 ^ 64 →
  Failed p ≤ Failed p' ≤ Failed p + Z.of_nat n
  ∧ ((∀ pattern masks m data length, Scan p pattern masks m data length = Thrown) →
     Failed p' = Failed p + Z.of_nat n).
Proof.
  intros Hrun Hi Hi' Hf0 Hfn.
  destruct (run_tests_plugin _ _ _ _ _ _ _ _ _ _ i p Hrun Hi)
    as (q & Hq & _ & _ & _ & Hbound & Hthrown & _).
  assert (q = p') as -> by congruence.
  split; [by apply Hbound|]. intros Hall. by apply Hthrown.
Qed.

(** X15. A plugin that scans as the Simple plugin does is never counted as
    failed: after any number of tests, at any position among the plugins,
    its failure counter is what it was. *)
Theorem baseline_never_fails fuel n pf reg tick ps log reg' ps' log' (i : nat) p p' self :
  run_tests fuel n pf reg tick ps log = Some (reg', ps', log') →
  ps !! i = Some p → ps' !! i = Some p' →
  Scan p = Scan (simple_plugin self) →
  Failed p' = Failed p.
Proof.
  intros Hrun Hi Hi' Hself.
  destruct (run_tests_plugin _ _ _ _ _ _ _ _ _ _ i p Hrun Hi)
    as (q & Hq & _ & _ & _ & _ & _ & Hsimple).
  assert (q = p') as -> by congruence. by apply (Hsimple self).
Qed.

(** X16. A plugin's cycle counter after [n] tests is its initial value plus
    the differences of the two clock readings taken around each of its
    scans, modulo 2^64; the plugin at position [i] of [len] plugins gets the
    readings number [2 * len * k + 2 * i] and the next one in test [k]. *)
Theorem elapsed_is_sum_of_readings fuel n pf reg tick ps log reg' ps' log' (i : nat) p p' :
  run_tests fuel n pf reg tick ps log = Some (reg', ps', log') →
  ps !! i = Some p → ps' !! i = Some p' →
  0 ≤ Elapsed p < 2 ^ 64 →
  Elapsed p' = wrap64 (Elapsed p + cycles_measured pf tick (length ps) i n).
Proof.
  intros Hrun Hi Hi' He.
  destruct (run_tests_plugin _ _ _ _ _ _ _ _ _ _ i p Hrun Hi)
    as (q & Hq & _ & _ & Helapsed & _).
  assert (q = p') as -> by congruence. by apply Helapsed.
Qed.
End RunExtra.

(** ** The ranking *)

Section RankExtra.
Implicit Types (a b : pattern_scanner) (ps : list pattern_scanner).

(** X17. The comparator of [main] is asymmetric, calls two plugins
    equivalent exactly when they have the same failure and cycle counters,
    and orders every other pair one way or the other. *)
Theorem rank_less_trichotomy a b :
  (rank_less a b = true → rank_less b a = false)
  ∧ (rank_less a b = false ∧ rank_less b a = false ↔ rank_key a = rank_key b)
  ∧ (rank_less a b = true ∨ rank_less b a = true ∨ rank_key a = rank_key b).
Proof.
  unfold rank_key.
  pose proof (rank_less_true a b) as Hab. pose proof (rank_less_true b a) as Hba.
  pose proof (rank_less_false a b) as Hab'. pose proof (rank_less_false b a) as Hba'.
  split; [|split].
  - intros H. apply Hba'. apply Hab in H. lia.
  - rewrite Hab', Hba'. split.
    + intros [? ?]. f_equal; lia.
    + intros [= -> ->]. lia.
  - assert (Hcases :
      (Failed a < Failed b ∨ Failed a = Failed b ∧ Elapsed a < Elapsed b)
      ∨ (Failed b < Failed a ∨ Failed b = Failed a ∧ Elapsed b < Elapsed a)
      ∨ (Failed a = Failed b ∧ Elapsed a = Elapsed b)) by lia.
    destruct Hcases as [H|[H|[H1 H2]]].
    + left. by apply Hab.
    + right; left. by apply Hba.
    + right; right. by rewrite H1, H2.
Qed.

(** The order on the keys is antisymmetric. *)
Global Instance key_le_antisymm : AntiSymm (=) key_le.
Proof.
  intros [f1 e1] [f2 e2]. unfold key_le. simpl. intros H1 H2. f_equal; lia.
Qed.

(** A list ordered at every pair of positions is sorted. *)
Lemma StronglySorted_of_lookup {A} (R : relation A) (l : list A) :
  (∀ (i j : nat) x y, (i < j)%nat → l !! i = Some x → l !! j = Some y → R x y) →
  StronglySorted R l.
Proof.
  induction l as [|z l IH]; intros Hl; constructor.
  - apply IH. intros i j x y Hij Hi Hj. by apply (Hl (S i) (S j)); [lia|..].
  - apply Forall_forall. intros y Hy.
    apply list_elem_of_lookup_1 in Hy as [j Hj]. by apply (Hl 0%nat (S j)); [lia|..].
Qed.

(** The keys of a ranking are sorted, and are the keys of the plugins. *)
Lemma sorted_keys (sort : (pattern_scanner → pattern_scanner → bool) →
                          list pattern_scanner → list pattern_scanner) ps :
  sort_contract sort →
  StronglySorted key_le (rank_key <$> sort rank_less ps)
  ∧ rank_key <$> sort rank_less ps ≡ₚ rank_key <$> ps.
Proof.
  intros Hsort.
  destruct (Hsort rank_less ps rank_less_strict_weak_order) as [Hperm Hord].
  split; [|by apply fmap_Permutation].
  apply StronglySorted_of_lookup. intros i j x y Hij Hi Hj.
  rewrite list_lookup_fmap in Hi, Hj.
  destruct (sort rank_less ps !! i) as [a|] eqn:Ha; [|done].
  destruct (sort rank_less ps !! j) as [b|] eqn:Hb; [|done].
  simpl in Hi, Hj. injection Hi as <-. injection Hj as <-.
  pose proof (Hord i j a b Hij Ha Hb) as Hba. apply rank_less_false in Hba.
  unfold key_le, rank_key. simpl. lia.
Qed.

(** X18. The ranking is determined up to the order of tied plugins: two
    sorting functions that meet the contract of [std::sort] produce the same
    sequence of (failures, cycles) pairs. *)
Theorem ranking_keys_unique
    (sort1 sort2 : (pattern_scanner → pattern_scanner → bool) →
                   list pattern_scanner → list pattern_scanner) ps :
  sort_contract sort1 → sort_contract sort2 →
  rank_key <$> sort1 rank_less ps = rank_key <$> sort2 rank_less ps.
Proof.
  intros H1 H2.
  destruct (sorted_keys sort1 ps H1) as [Hs1 Hp1].
  destruct (sorted_keys sort2 ps H2) as [Hs2 Hp2].
  apply (StronglySorted_unique key_le); [done|done|]. by rewrite Hp1, Hp2.
Qed.
End RankExtra.

(** ** The ranking of a run *)

Section RunRanking.

Context {G : Type} `{!StdRandom G}.

(** The ranking [main] reports is ordered by the comparator. *)
Lemma main_ranked_lt
    (std_sort : (pattern_scanner → pattern_scanner → bool) →
                list pattern_scanner → list pattern_scanner)
    fuel pf seed argv1 PATTERNS ranked (i j : nat) a b :
  sort_contract std_sort →
  main std_sort fuel pf seed argv1 PATTERNS = Finished ranked →
  ranked !! i = Some a → ranked !! j = Some b →
  rank_less a b = true → (i < j)%nat.
Proof.
  intros Hsort Hmain Hi Hj Hab.
  apply main_ranking in Hmain as (reg & ps & log & _ & ->).
  destruct (Hsort rank_less ps rank_less_strict_weak_order) as [_ Hord].
  destruct (decide (i < j)%nat) as [|Hge]; [done|].
  destruct (decide (i = j)) as [->|Hne].
  - rewrite Hi in Hj. injection Hj as ->.
    destruct rank_less_strict_weak_order as [Hirr _]. by rewrite Hirr in Hab.
  - assert (Hji : (j < i)%nat) by lia.
    by rewrite (Hord j i b a Hji Hj Hi) in Hab.
Qed.

(** C2. When [main] has run all the tests, the ranking it reports (with
    any sorting function meeting the contract of [std::sort] in the place
    of [std::sort]) consists of the plugins as the test loop left them,
    with the failure and cycle counters accumulated over the tests, and of
    two scanners in it the one with fewer failures comes first whatever
    the cycles; with equal failures the one with fewer cycles comes
    first. *)
Theorem ranking_order
    (std_sort : (pattern_scanner → pattern_scanner → bool) →
                list pattern_scanner → list pattern_scanner)
    (Hsort : sort_contract std_sort)
    fuel pf seed argv1 PATTERNS ranked (i j : nat) a b :
  main std_sort fuel pf seed argv1 PATTERNS = Finished ranked →
  ranked !! i = Some a → ranked !! j = Some b →
  (∃ reg ps log,
     main_tests fuel pf seed argv1 PATTERNS = Finished (reg, ps, log)
     ∧ length log = TEST_COUNT ∧ ranked ≡ₚ ps)
  ∧ (Failed a < Failed b → (i < j)%nat)
  ∧ (Failed a = Failed b → Elapsed a < Elapsed b → (i < j)%nat).
Proof.
  intros Hmain Hi Hj. split.
  - pose proof Hmain as Hm.
    apply main_ranking in Hm as (reg & ps & log & Htests & ->).
    destruct (Hsort rank_less ps rank_less_strict_weak_order) as [Hperm _].
    exists reg, ps, log. split; [done|]. split; [|done].
    revert Htests. unfold main_tests. generalize TEST_COUNT. intros n.
    destruct (match argv1 with Some _ => _ | None => _ end) as [reg0|]; [|done].
    destruct (run_tests fuel n pf reg0 0 PATTERNS []) as [r|] eqn:Hrun; [|done].
    intros [= ->].
    by destruct (run_tests_shape _ _ _ _ _ _ _ _ _ _ Hrun) as (_ & (new & -> & Hnew) & _).
  - split; intros; eapply main_ranked_lt; try done; apply rank_less_true; lia.
Qed.

End RunRanking.

(** ** The process *)

Section ProcessProperties.

Context {G : Type} `{!StdRandom G}.
Implicit Types (reg : scan_bench G) (pf : platform) (cs : list plugin).

(** A call of [generate] that returns in the process has the effect
    [generate] describes. *)
Lemma generate_checked_Finished fuel reg x :
  generate_checked fuel reg = Finished x → generate fuel reg = Some x.
Proof.
  unfold generate_checked. destruct (generate fuel reg) as [[reg' offsets]|]; [|done].
  by destruct (_ && _); intros [= <-].
Qed.

(** In the process [generate] ends in one of three ways. *)
Lemma generate_checked_cases fuel reg :
  (∃ x, generate_checked fuel reg = Finished x)
  ∨ generate_checked fuel reg = Killed
  ∨ (generate_checked fuel reg = OutOfFuel ∧ generate fuel reg = None).
Proof.
  unfold generate_checked. destruct (generate fuel reg) as [[reg' offsets]|]; [|by auto].
  destruct (_ && _); eauto.
Qed.

(** A loop over the plugins that ends in the process leaves the plugins as
    [run_scanners] says, and it can only end or be killed. *)
Lemma run_scanners_checked_Finished pf reg cs : ∀ tick cs' tick',
  run_scanners_checked pf reg tick cs = Finished (cs', tick') →
  run_scanners pf reg tick (scanner <$> cs) = (scanner <$> cs', tick')
  ∧ Loads <$> cs' = Loads <$> cs.
Proof.
  induction cs as [|c cs IH]; intros tick cs' tick'; cbn [run_scanners_checked].
  - by intros [= <- <-].
  - destruct (call_Scan reg c); [|done].
    destruct (run_scanners_checked pf reg (S (S tick)) cs) as [[cs1 t1]| | |] eqn:Hrest;
      cbn [run_bind]; [|done..].
    intros [= <- <-]. destruct (IH _ _ _ Hrest) as [Hrun Hloads].
    cbn [fmap list_fmap run_scanners]. fold (fmap (M:=list) scanner).
    rewrite Hrun. cbn. split; [done|]. by f_equal.
Qed.

Lemma run_scanners_checked_cases pf reg cs : ∀ tick,
  (∃ x, run_scanners_checked pf reg tick cs = Finished x)
  ∨ run_scanners_checked pf reg tick cs = Killed.
Proof.
  induction cs as [|c cs IH]; intros tick; cbn [run_scanners_checked]; [by eauto|].
  destruct (call_Scan reg c); [|by auto].
  destruct (IH (S (S tick))) as [[[cs1 t1] ->]| ->]; cbn [run_bind]; eauto.
Qed.

(** A trap inside a call ends the loop over the plugins, whatever comes
    before and after the plugin. *)
Lemma run_scanners_checked_Trap pf reg pre c post : ∀ tick,
  call_Scan reg c = Trap →
  run_scanners_checked pf reg tick (pre ++ c :: post) = Killed.
Proof.
  induction pre as [|c0 pre IH]; intros tick Htrap; cbn [app run_scanners_checked].
  - by rewrite Htrap.
  - destruct (call_Scan reg c0); [|done]. by rewrite IH.
Qed.

(** A test loop that ends in the process ends as [run_tests] says. *)
Lemma run_tests_checked_Finished fuel n pf : ∀ reg tick cs log reg' cs' log',
  run_tests_checked fuel n pf reg tick cs log = Finished (reg', cs', log') →
  run_tests fuel n pf reg tick (scanner <$> cs) log
  = Some (reg', scanner <$> cs', log').
Proof.
  induction n as [|n IH]; intros reg tick cs log reg' cs' log';
    cbn [run_tests_checked run_tests].
  - by intros [= <- <- <-].
  - destruct (generate_checked fuel reg) as [[reg1 offsets]| | |] eqn:Hgen;
      cbn [run_bind]; [|done..].
    apply generate_checked_Finished in Hgen. rewrite Hgen. cbn [mbind option_bind].
    destruct (run_scanners_checked pf reg1 tick cs) as [[cs1 t1]| | |] eqn:Hscan;
      cbn [run_bind]; [|done..].
    apply run_scanners_checked_Finished in Hscan as [-> _]. apply IH.
Qed.

(** The loop over the plugins is cut short exactly when the call of one
    of them traps; an exception thrown by a call never does it. *)
Lemma run_scanners_checked_Killed_iff pf reg cs : ∀ tick,
  run_scanners_checked pf reg tick cs = Killed
  ↔ ∃ c, c ∈ cs ∧ call_Scan reg c = Trap.
Proof.
  induction cs as [|c cs IH]; intros tick; cbn [run_scanners_checked].
  - split; [done|]. by intros (c & Hc%elem_of_nil & _).
  - destruct (call_Scan reg c) as [o|] eqn:Hcall.
    + assert (Hrest : run_bind (run_scanners_checked pf reg (S (S tick)) cs)
          (λ '(cs', tick'),
             Finished ({| scanner := run_scanner reg (rdtsc pf tick)
                                       (rdtsc pf (S tick)) (scanner c);
                          Loads := Loads c |} :: cs', tick')) = Killed
        ↔ run_scanners_checked pf reg (S (S tick)) cs = Killed).
      { destruct (run_scanners_checked_cases pf reg cs (S (S tick)))
          as [[[cs1 t1] ->]| ->]; cbn [run_bind]; by split. }
      rewrite Hrest, IH. split.
      * intros (c' & Hin & Htrap). exists c'. split; [by right|done].
      * intros (c' & Hin & Htrap). apply elem_of_cons in Hin as [->|Hin].
        -- congruence.
        -- by exists c'.
    + split; [|done]. intros _. exists c. split; [by left|done].
Qed.

(** The test loop of the process does not end in a set-up failure. *)
Lemma run_tests_checked_not_Aborted fuel n pf : ∀ reg tick cs log,
  run_tests_checked fuel n pf reg tick cs log ≠ Aborted.
Proof.
  induction n as [|n IH]; intros reg tick cs log; cbn [run_tests_checked]; [done|].
  destruct (generate_checked_cases fuel reg) as [[[reg1 offsets] ->]|[->|[-> _]]];
    cbn [run_bind]; [|done..].
  destruct (run_scanners_checked_cases pf reg1 cs tick) as [[[cs1 t1] ->]| ->];
    cbn [run_bind]; [apply IH|done].
Qed.



(** A run of [main] that finishes in the process finishes as [main] says,
    with the same ranking. *)
Lemma main_checked_Finished
    (std_sort : (pattern_scanner → pattern_scanner → bool) →
                list pattern_scanner → list pattern_scanner)
    fuel pf seed argv1 cs ranked :
  main_checked std_sort fuel pf seed argv1 cs = Finished ranked →
  main std_sort fuel pf seed argv1 (scanner <$> cs) = Finished ranked.
Proof.
  unfold main_checked, main, main_tests. generalize TEST_COUNT. intros n.
  destruct (match argv1 with Some _ => _ | None => _ end) as [reg|]; [|done].
  destruct (run_tests_checked fuel n pf reg 0 cs []) as [[[reg' cs'] log']| | |] eqn:Hrun;
    cbn [run_bind]; [|done..].
  apply run_tests_checked_Finished in Hrun. by rewrite Hrun.
Qed.






(** The loads of the oracle stay inside the window. *)
Lemma FindPatternSimple_loads_inside data length masks a :
  a ∈ FindPatternSimple_loads data length masks → data ≤ a < data + length.
Proof.
  unfold FindPatternSimple_loads. intros Ha.
  apply list_elem_of_bind in Ha as (i & Ha & Hi).
  apply list_elem_of_fmap in Ha as (j & -> & Hj).
  apply list_elem_of_filter in Hj as [_ Hj]. apply elem_of_seq in Hj.
  apply elem_of_seqZ in Hi. lia.
Qed.

(** On a region that holds the largest window offset and the longest
    pattern, all of it mapped read-write, [generate] returns in the
    process when, and with what, [generate] returns: no store and no load
    leaves the region. *)
Lemma generate_checked_agrees (Hdraw : draws_in_range G) fuel reg reg' offsets :
  generate fuel reg = Some (reg', offsets) →
  132 ≤ full_size_ reg < 2 ^ 64 →
  (∀ a, full_data_ reg ≤ a < full_data_ reg + full_size_ reg →
        accessible reg a = true) →
  generate_checked fuel reg = Finished (reg', offsets).
Proof.
  intros Hgen Hfull Hacc.
  destruct (generate_spec Hdraw _ _ _ _ Hgen Hfull)
    as ((Hdata & Hend) & Hplen & _ & Hall & _).
  unfold generate_checked. rewrite Hgen.
  assert (Hstores : forallb (accessible reg)
            (offsets ≫= λ offset,
               stamp_stores (data_ reg') offset (pattern_ reg') (masks_ reg')) = true).
  { apply Is_true_true. rewrite forallb_True, Forall_forall. intros a Ha.
    apply Is_true_true, Hacc.
    apply list_elem_of_bind in Ha as (o & Ha & Ho).
    rewrite Forall_forall in Hall. destruct (Hall o Ho) as [Ho0 Ho1].
    unfold stamp_stores in Ha. apply list_elem_of_fmap in Ha as (j & -> & Hj).
    apply list_elem_of_filter in Hj as [_ Hj]. apply elem_of_seq in Hj.
    rewrite stamp_addr_plain by lia. lia. }
  assert (Hloads : forallb (accessible reg)
            (FindPatternSimple_loads (data_ reg') (size_ reg') (masks_ reg')) = true).
  { apply Is_true_true. rewrite forallb_True, Forall_forall. intros a Ha.
    apply Is_true_true, Hacc. apply FindPatternSimple_loads_inside in Ha. lia. }
  by rewrite Hstores, Hloads.
Qed.

(** With the window mapped read-write, a loop over plugins whose loads
    stay inside the window ends in the process as [run_scanners] says. *)
Lemma run_scanners_checked_agrees pf reg cs : ∀ tick,
  Forall loads_inside cs →
  (∀ a, data_ reg ≤ a < data_ reg + size_ reg → accessible reg a = true) →
  ∃ cs',
    run_scanners_checked pf reg tick cs
    = Finished (cs', (run_scanners pf reg tick (scanner <$> cs)).2)
    ∧ scanner <$> cs' = (run_scanners pf reg tick (scanner <$> cs)).1
    ∧ Loads <$> cs' = Loads <$> cs.
Proof.
  induction cs as [|c cs IH]; intros tick Hin Hacc; cbn [run_scanners_checked].
  - by exists [].
  - apply Forall_cons in Hin as [Hc Hin].
    assert (Hcall : call_Scan reg c
      = Back (Scan (scanner c) (pattern_ reg) (masks_ reg) (memory reg)
                (data_ reg) (size_ reg))).
    { unfold call_Scan.
      destruct (forallb (accessible reg) _) eqn:Hall; [done|].
      apply not_true_iff_false in Hall. exfalso. apply Hall.
      apply Is_true_true. rewrite forallb_True, Forall_forall. intros a Ha.
      by apply Is_true_true, Hacc, (Hc _ _ _ _ _ _ Ha). }
    rewrite Hcall. destruct (IH (S (S tick)) Hin Hacc) as (cs' & -> & Hsc & Hld).
    cbn [run_bind fmap list_fmap run_scanners]. fold (fmap (M:=list) scanner).
    destruct (run_scanners pf reg (S (S tick)) (scanner <$> cs)) as [ps' tick'].
    cbn [fst snd] in *. eexists. split; [done|]. cbn. split; by f_equal.
Qed.

(** With the usable region mapped read-write and at least 132 bytes long,
    a test loop over plugins whose loads stay inside the window ends in the
    process as [run_tests] says: no access of the run traps. *)
Lemma run_tests_checked_agrees (Hdraw : draws_in_range G) fuel n pf :
  ∀ reg tick cs log,
  132 ≤ full_size_ reg < 2 ^ 64 →
  (∀ a, full_data_ reg ≤ a < full_data_ reg + full_size_ reg →
        accessible reg a = true) →
  Forall loads_inside cs →
  match run_tests fuel n pf reg tick (scanner <$> cs) log with
  | Some (reg', ps', log') =>
      ∃ cs', run_tests_checked fuel n pf reg tick cs log = Finished (reg', cs', log')
             ∧ scanner <$> cs' = ps'
  | None => run_tests_checked fuel n pf reg tick cs log = OutOfFuel
  end.
Proof.
  induction n as [|n IH]; intros reg tick cs log Hfull Hacc Hin;
    cbn [run_tests run_tests_checked].
  - by exists cs.
  - destruct (generate fuel reg) as [[reg1 offsets]|] eqn:Hgen; cbn [mbind option_bind].
    + rewrite (generate_checked_agrees Hdraw _ _ _ _ Hgen Hfull Hacc). cbn [run_bind].
      destruct (generate_spec Hdraw _ _ _ _ Hgen Hfull)
        as ((Hdata & Hend) & _ & _ & _ & _ & _ & (Hfd & Hfs & _ & _ & Hprot)).
      assert (Hacc1 : ∀ a, full_data_ reg1 ≤ a < full_data_ reg1 + full_size_ reg1 →
                accessible reg1 a = true).
      { intros a Ha. unfold accessible. rewrite Hprot. apply Hacc. lia. }
      destruct (run_scanners_checked_agrees pf reg1 cs tick Hin) as (cs1 & -> & Hsc & Hld).
      { intros a Ha. apply Hacc1. lia. }
      cbn [run_bind].
      destruct (run_scanners pf reg1 tick (scanner <$> cs)) as [ps1 tick1].
      cbn [fst snd] in *. subst ps1.
      apply IH; [lia|done|].
      apply Forall_forall. intros c Hc.
      apply list_elem_of_lookup_1 in Hc as [k Hk].
      assert (Hlk : (Loads <$> cs) !! k = Some (Loads c))
        by (by rewrite <-Hld, list_lookup_fmap, Hk).
      rewrite list_lookup_fmap in Hlk.
      destruct (cs !! k) as [c0|] eqn:Hc0; [|done]. injection Hlk as Hlk.
      rewrite Forall_forall in Hin. pose proof (Hin c0 (list_elem_of_lookup_2 _ _ _ Hc0)) as H0.
      unfold loads_inside in *. intros. rewrite <-Hlk in *. by eapply H0.
    + unfold generate_checked. by rewrite Hgen.
Qed.




(** A plugin that loads the byte after the window traps: the window ends
    where the usable region ends, at the first byte of the trailing guard
    page. *)
Lemma overread_traps (Hdraw : draws_in_range G) fuel reg reg' offsets c :
  generate fuel reg = Some (reg', offsets) →
  132 ≤ full_size_ reg < 2 ^ 64 →
  accessible reg (full_data_ reg + full_size_ reg) = false →
  data_ reg' + size_ reg'
    ∈ Loads c (pattern_ reg') (masks_ reg') (memory reg') (data_ reg') (size_ reg') →
  call_Scan reg' c = Trap.
Proof.
  intros Hgen Hfull Hguard Hload.
  destruct (generate_spec Hdraw _ _ _ _ Hgen Hfull)
    as ((_ & Hend) & _ & _ & _ & _ & _ & (_ & _ & _ & _ & Hprot)).
  unfold call_Scan.
  destruct (forallb (accessible reg') _) eqn:Hall; [|done].
  apply Is_true_true in Hall. rewrite forallb_True, Forall_forall in Hall.
  specialize (Hall _ Hload). apply Is_true_true in Hall.
  unfold accessible in Hall, Hguard. rewrite Hprot, Hend in Hall. congruence.
Qed.

End ProcessProperties.

(** ** The further statements on concrete inputs *)

(** The script engine respects the ranges of its draws. *)
Lemma scripted_draws_in_range : draws_in_range (list Z).
Proof.
  intros a b g Hab. destruct g as [|w g]; simpl; [lia|].
  pose proof (Z.mod_pos_bound w (b - a + 1) ltac:(lia)). lia.
Qed.

(** X2 for the seeds 1 and 2^31 on two platforms with different
    plugins. *)
Lemma seeds_alias_modulo_witness :
  rng_ (scan_bench_new (small_platform 4096 0) 1)
  = rng_ (scan_bench_new (small_platform 1048576 99) 2147483648)
  ∧ scenarios_of (main_tests 4 (small_platform 4096 0) 1
                    (Some (ReadOk haystack)) three_plugins)
    = scenarios_of (main_tests 4 (small_platform 1048576 99) 2147483648
                      (Some (ReadOk haystack)) []).
Proof.
  assert (H1 : 1 ≠ 0) by (intros H; discriminate H).
  assert (H2 : 2147483648 ≠ 0) by (intros H; discriminate H).
  exact (seeds_alias_modulo 4 (small_platform 4096 0) (small_platform 1048576 99)
           1 2147483648 (Some (ReadOk haystack)) three_plugins []
           H1 H2 eq_refl eq_refl (λ n, eq_refl)).
Defined.

(** X5 for the offsets 18, 200 and 18 again. *)
Lemma shift_results_round_trip_witness :
  shift_results verifier_region
    ((λ o, data_ verifier_region + o) <$> [18; 200; 18]) = list_to_set [18; 200; 18].
Proof.
  apply (shift_results_round_trip verifier_region [18; 200; 18]).
  repeat constructor; lia.
Defined.

(** X6 for two result lists with the addresses 4373 and 4555. *)
Lemma check_results_ignores_order_witness :
  check_results verifier_region [4373; 4555; 4373]
  = check_results verifier_region [4555; 4373].
Proof.
  apply (check_results_ignores_order verifier_region [4373; 4555; 4373] [4555; 4373]).
  intros a. rewrite !elem_of_cons, !elem_of_nil. tauto.
Defined.

(** The second sorting function meets the contract of [std::sort]. *)
Lemma merge_sort_rev_contract {A : Type} : sort_contract (@merge_sort_rev A).
Proof.
  intros comp l Hswo. unfold merge_sort_rev.
  destruct (merge_sort_by_contract comp (reverse l) Hswo) as [Hperm Hord].
  split; [by rewrite Hperm, reverse_Permutation|done].
Qed.

(** X3 for the haystack: the last byte of the leading guard page and the
    first byte of the trailing one are as before. *)
Lemma reset_writes_window_only_witness :
  let reg' := reset (small_platform 4096 0) fresh (Some haystack) 10 in
  memory reg' (full_data_ reg' - 1) = memory fresh (full_data_ reg' - 1)
  ∧ memory reg' (full_data_ reg' + full_size_ reg')
    = memory fresh (full_data_ reg' + full_size_ reg').
Proof.
  intros reg'.
  assert (Hsize : is_Some (Some haystack) → 0 ≤ 10 ≤ full_size_ reg').
  { intros _. vm_compute. split; intros H; discriminate H. }
  destruct (reset_writes_window_only (small_platform 4096 0) fresh (Some haystack) 10
              Hsize) as [Hframe _].
  fold reg' in Hframe. split; apply Hframe; lia.
Defined.

(** X4 for a file holding the haystack, on pages of 256 bytes. *)
Lemma reset_file_round_trip_witness :
  ∃ reg', reset_file (small_platform 4096 0) fresh (ReadOk haystack) = Some reg'
    ∧ rng_ reg' = rng_ fresh
    ∧ full_size_ reg' = 256
    ∧ memory reg' <$> seqZ (full_data_ reg') (full_size_ reg')
      = replicate (Z.to_nat (full_size_ reg' - 10)) 0 ++ haystack.
Proof.
  assert (Hfit : round_up (Z.of_nat (length haystack)) (page_size (small_platform 4096 0))
                 + 2 * page_size (small_platform 4096 0) < 2 ^ 64) by reflexivity.
  exact (reset_file_round_trip (small_platform 4096 0) fresh haystack
           eq_refl eq_refl Hfit).
Defined.

(** X8 on the script. *)
Lemma generate_window_witness :
  ∃ reg' offsets, generate 2 retry_region = Some (reg', offsets)
    ∧ (5 ≤ length (pattern_ reg') ≤ 32)%nat ∧ (2 ≤ length offsets ≤ 10)%nat
    ∧ data_ reg' + size_ reg' = full_data_ retry_region + full_size_ retry_region.
Proof.
  destruct generate_on_script_returns as (reg' & offsets & Hgen).
  assert (Hfull : 132 ≤ full_size_ retry_region < 2 ^ 64)
    by (vm_compute; split; [intros H; discriminate H|reflexivity]).
  destruct (generate_window scripted_draws_in_range 2 retry_region reg' offsets
              Hgen Hfull) as ((_ & Hend) & Hplen & Hcount & _).
  exists reg', offsets. done.
Defined.

(** X9 on the script: the last byte of the leading guard page, at 4351, is
    as before. *)
Lemma generate_writes_window_only_witness :
  ∃ reg' offsets, generate 2 retry_region = Some (reg', offsets)
    ∧ memory reg' 4351 = memory retry_region 4351
    ∧ protection reg' = protection retry_region.
Proof.
  destruct generate_on_script_returns as (reg' & offsets & Hgen).
  assert (Hfull : 132 ≤ full_size_ retry_region < 2 ^ 64)
    by (vm_compute; split; [intros H; discriminate H|reflexivity]).
  destruct (generate_writes_window_only scripted_draws_in_range 2 retry_region
              reg' offsets Hgen Hfull) as (Hframe & _ & _ & _ & _ & Hprot).
  exists reg', offsets. split; [done|]. split; [|done].
  apply Hframe. assert (full_data_ retry_region = 4352) as -> by reflexivity. lia.
Defined.

(** X10 on the script. *)
Lemma generate_last_implant_intact_witness :
  ∃ reg' offsets o, generate 2 retry_region = Some (reg', offsets)
    ∧ last offsets = Some o
    ∧ ∀ j : nat, masks_ reg' !! j = Some "x"%char →
        pattern_ reg' !! j = Some (memory reg' (data_ reg' + o + Z.of_nat j)).
Proof.
  destruct generate_on_script_returns as (reg' & offsets & Hgen).
  assert (Hfull : 132 ≤ full_size_ retry_region < 2 ^ 64)
    by (vm_compute; split; [intros H; discriminate H|reflexivity]).
  destruct (generate_last_implant_intact scripted_draws_in_range 2 retry_region
              reg' offsets Hgen Hfull) as (o & Ho & _ & _ & Hbytes).
  by exists reg', offsets, o.
Defined.

(** Two tests over the haystack with the three plugins return. *)
Lemma run_on_script_returns :
  ∃ reg' p0 p1 p2 log',
    run_tests 2 2 (small_platform 4096 0) retry_region 0 three_plugins []
    = Some (reg', [p0; p1; p2], log').
Proof.
  assert (Hb : (match run_tests 2 2 (small_platform 4096 0) retry_region 0
                        three_plugins [] with
                | Some (_, [_; _; _], _) => true
                | _ => false
                end) = true) by (vm_compute; reflexivity).
  revert Hb.
  destruct (run_tests 2 2 (small_platform 4096 0) retry_region 0 three_plugins [])
    as [[[reg' [|p0 [|p1 [|p2 [|p3 ps']]]]] log']|];
    intros Hb; try discriminate Hb.
  by exists reg', p0, p1, p2, log'.
Defined.

(** X12 for two tests with the three plugins. *)
Lemma run_tests_schedule_witness :
  ∃ reg' ps' log',
    run_tests 2 2 (small_platform 4096 0) retry_region 0 three_plugins []
    = Some (reg', ps', log')
    ∧ GetName <$> ps' = GetName <$> three_plugins
    ∧ length log' = 2%nat
    ∧ full_data_ reg' = 4352.
Proof.
  destruct run_on_script_returns as (reg' & p0 & p1 & p2 & log' & Hrun).
  destruct (run_tests_schedule 2 2 (small_platform 4096 0) retry_region 0
              three_plugins [] reg' [p0; p1; p2] log' Hrun)
    as (Hnames & _ & (new & -> & Hlen) & Hfull & _).
  exists reg', [p0; p1; p2], ([] ++ new).
  split; [exact Hrun|]. split; [exact Hnames|]. split; [exact Hlen|].
  rewrite Hfull. reflexivity.
Defined.

(** X14 for the throwing plugin: two failures in two tests. *)
Lemma failures_bounded_by_tests_witness :
  ∃ reg' ps' log' p',
    run_tests 2 2 (small_platform 4096 0) retry_region 0 three_plugins []
    = Some (reg', ps', log')
    ∧ ps' !! 1%nat = Some p' ∧ Failed p' = 2.
Proof.
  destruct run_on_script_returns as (reg' & p0 & p1 & p2 & log' & Hrun).
  assert (Hpos : 0 ≤ Failed throwing_plugin) by reflexivity.
  assert (Hfit : Failed throwing_plugin + Z.of_nat 2 < 2 ^ 64) by reflexivity.
  destruct (failures_bounded_by_tests 2 2 (small_platform 4096 0) retry_region 0
              three_plugins [] reg' [p0; p1; p2] log' 1 throwing_plugin p1
              Hrun eq_refl eq_refl Hpos Hfit) as [_ Hthrown].
  exists reg', [p0; p1; p2], log', p1.
  split; [exact Hrun|]. split; [reflexivity|]. rewrite Hthrown; [reflexivity|].
  reflexivity.
Defined.

(** X15 for the Simple plugin in third position. *)
Lemma baseline_never_fails_witness :
  ∃ reg' ps' log' p',
    run_tests 2 2 (small_platform 4096 0) retry_region 0 three_plugins []
    = Some (reg', ps', log')
    ∧ ps' !! 2%nat = Some p' ∧ Failed p' = 0.
Proof.
  destruct run_on_script_returns as (reg' & p0 & p1 & p2 & log' & Hrun).
  exists reg', [p0; p1; p2], log', p2.
  split; [exact Hrun|]. split; [reflexivity|].
  exact (baseline_never_fails 2 2 (small_platform 4096 0) retry_region 0
           three_plugins [] reg' [p0; p1; p2] log' 2 (simple_plugin simple_new) p2
           simple_new Hrun eq_refl eq_refl eq_refl).
Defined.

(** X16 for the throwing plugin in second position: the clock reads 1028
    and 1063 around its first scan, 1448 and 1567 around its second. *)
Lemma elapsed_is_sum_of_readings_witness :
  ∃ reg' ps' log' p',
    run_tests 2 2 (small_platform 4096 0) retry_region 0 three_plugins []
    = Some (reg', ps', log')
    ∧ ps' !! 1%nat = Some p' ∧ Elapsed p' = 154.
Proof.
  destruct run_on_script_returns as (reg' & p0 & p1 & p2 & log' & Hrun).
  assert (Hrange : 0 ≤ Elapsed throwing_plugin < 2 ^ 64) by (split; reflexivity).
  exists reg', [p0; p1; p2], log', p1.
  split; [exact Hrun|]. split; [reflexivity|].
  rewrite (elapsed_is_sum_of_readings 2 2 (small_platform 4096 0) retry_region 0
             three_plugins [] reg' [p0; p1; p2] log' 1 throwing_plugin p1
             Hrun eq_refl eq_refl Hrange).
  reflexivity.
Defined.

(** X18 for merge sort and merge sort of the reversed list. *)
Lemma ranking_keys_unique_witness :
  rank_key <$> merge_sort_by rank_less [ranked_a; ranked_b; ranked_c]
  = rank_key <$> merge_sort_rev rank_less [ranked_a; ranked_b; ranked_c].
Proof.
  exact (ranking_keys_unique merge_sort_by merge_sort_rev
           [ranked_a; ranked_b; ranked_c]
           merge_sort_by_contract merge_sort_rev_contract).
Defined.

(** [main] over the haystack with the three plugins finishes. *)
Lemma main_on_haystack_finishes :
  ∃ ranked,
    main merge_sort_by 1 (small_platform 4096 0) 7 (Some (ReadOk haystack))
      three_plugins = Finished ranked.
Proof.
  assert (Hb : (if main merge_sort_by 1 (small_platform 4096 0) 7
                     (Some (ReadOk haystack)) three_plugins
                is Finished _ then true else false) = true) by (lazy; reflexivity).
  revert Hb.
  destruct (main merge_sort_by 1 (small_platform 4096 0) 7 (Some (ReadOk haystack))
              three_plugins) as [ranked| | |]; intros Hb; try discriminate Hb.
  exists ranked. reflexivity.
Defined.

(** X13 for [main] over the haystack with the three plugins. *)
Lemma main_reports_every_plugin_witness :
  ∃ ranked,
    main merge_sort_by 1 (small_platform 4096 0) 7 (Some (ReadOk haystack))
      three_plugins = Finished ranked
    ∧ GetName <$> ranked ≡ₚ GetName <$> three_plugins
    ∧ length ranked = 3%nat.
Proof.
  destruct main_on_haystack_finishes as (ranked & Hmain).
  destruct (main_reports_every_plugin merge_sort_by 1 (small_platform 4096 0) 7
              (Some (ReadOk haystack)) three_plugins ranked
              merge_sort_by_contract Hmain) as (Hnames & Hlen & _).
  exists ranked. exact (conj Hmain (conj Hnames Hlen)).
Defined.

(** C2 for a run of [main] over the haystack with two plugins that throw
    in every test: the one registered first enters the run with five
    failures and is ranked second. *)
Lemma ranking_order_witness :
  ∃ a b,
    main merge_sort_by 1 (small_platform 4096 0) 7 (Some (ReadOk haystack))
      [late_thrower; throwing_plugin] = Finished [a; b]
    ∧ GetName a = "Throws"%string ∧ Failed a = 512
    ∧ GetName b = "Late"%string ∧ Failed b = 517
    ∧ (0 < 1)%nat.
Proof.
  assert (Hb : (match main merge_sort_by 1 (small_platform 4096 0) 7
                        (Some (ReadOk haystack)) [late_thrower; throwing_plugin] with
                | Finished [a; b] =>
                    String.eqb (GetName a) "Throws" && (Failed a =? 512)
                    && String.eqb (GetName b) "Late" && (Failed b =? 517)
                | _ => false
                end) = true) by (lazy; reflexivity).
  revert Hb.
  destruct (main merge_sort_by 1 (small_platform 4096 0) 7 (Some (ReadOk haystack))
              [late_thrower; throwing_plugin])
    as [[|a [|b [|c ranked]]]| | |] eqn:Hmain; intros Hb; try discriminate Hb.
  apply andb_prop in Hb as [Hb Hfb]. apply andb_prop in Hb as [Hb Hnb].
  apply andb_prop in Hb as [Hna Hfa].
  apply String.eqb_eq in Hna, Hnb. apply Z.eqb_eq in Hfa, Hfb.
  destruct (ranking_order merge_sort_by merge_sort_by_contract 1 (small_platform 4096 0)
              7 (Some (ReadOk haystack)) [late_thrower; throwing_plugin] [a; b]
              0 1 a b Hmain eq_refl eq_refl) as (_ & Hlt & _).
  exists a, b. split; [reflexivity|]. split; [exact Hna|]. split; [exact Hfa|].
  split; [exact Hnb|]. split; [exact Hfb|]. apply Hlt. rewrite Hfa, Hfb. reflexivity.
Defined.

(** C3 fails across page sizes: with the seed 7 and the haystack as the
    input file, the first scenario has a window of 171 bytes on pages of
    256 bytes and of 4011 bytes on pages of 4096 bytes, and the implant
    offsets drawn from the same engine differ. *)
Lemma scenarios_depend_on_page_size :
  (window_size <$> first_scenario (replay_run (small_platform 4096 0)) = Some 171
   ∧ implants <$> first_scenario (replay_run (small_platform 4096 0))
     = Some [158; 58; 117; 117; 67; 57; 69; 115])
  ∧ (window_size <$> first_scenario (replay_run page4k_platform) = Some 4011
     ∧ implants <$> first_scenario (replay_run page4k_platform)
       = Some [3358; 3418; 757; 3797; 547; 2937; 869; 435])
  ∧ replay_run (small_platform 4096 0) ≠ replay_run page4k_platform.
Proof.
  assert (H1 : window_size <$> first_scenario (replay_run (small_platform 4096 0))
               = Some 171) by (lazy; reflexivity).
  assert (H2 : window_size <$> first_scenario (replay_run page4k_platform)
               = Some 4011) by (lazy; reflexivity).
  split; [split; [exact H1|lazy; reflexivity]|].
  split; [split; [exact H2|lazy; reflexivity]|].
  intros Heq. rewrite Heq, H2 in H1. discriminate H1.
Qed.

(** [generate] returns in the process on the script. *)
Lemma generate_checked_on_script_returns :
  ∃ reg1 offsets, generate_checked 2 retry_region = Finished (reg1, offsets).
Proof.
  assert (Hb : (if generate_checked 2 retry_region is Finished _ then true else false)
               = true) by (vm_compute; reflexivity).
  revert Hb.
  destruct (generate_checked 2 retry_region) as [[reg1 offsets]| | |];
    intros Hb; try discriminate Hb.
  exists reg1, offsets. reflexivity.
Defined.

(** C4 fails for a hardware trap: the scenario is generated, the call of a
    plugin that loads the byte after the window traps, and neither the
    loop over the plugins nor the run of [main] goes on: no counter is
    updated and no ranking is reported. *)
Lemma trap_is_not_contained :
  ∃ reg1 offsets,
    generate_checked 2 retry_region = Finished (reg1, offsets)
    ∧ call_Scan reg1 overreading_code = Trap
    ∧ run_scanners_checked (small_platform 4096 0) reg1 0 three_codes = Killed
    ∧ main_checked merge_sort_by 4 (small_platform 4096 0) 7
        (Some (ReadOk haystack)) three_codes = Killed.
Proof.
  destruct generate_checked_on_script_returns as (reg1 & offsets & Hgc).
  exists reg1, offsets. split; [exact Hgc|].
  pose proof (generate_checked_Finished _ _ _ Hgc) as Hgen.
  assert (Hfull : 132 ≤ full_size_ retry_region < 2 ^ 64)
    by (vm_compute; split; [intros H; discriminate H|reflexivity]).
  assert (Htrap : call_Scan reg1 overreading_code = Trap).
  { apply (overread_traps scripted_draws_in_range 2 retry_region reg1 offsets
             overreading_code Hgen Hfull); [reflexivity|].
    cbn [Loads overreading_code]. apply elem_of_seqZ.
    destruct (generate_inv _ _ _ _ Hgen)
      as (variation & ? & ? & ? & ? & ? & ? & _ & _ & _ & _ & _ & _ & Hsize & _).
    pose proof (wrap64_range (full_size_ retry_region - variation)) as Hr.
    rewrite <-Hsize in Hr. lia. }
  split; [exact Htrap|]. split.
  - exact (run_scanners_checked_Trap (small_platform 4096 0) reg1
             [quiet silent_plugin] overreading_code [simple_code] 0%nat Htrap).
  - lazy. reflexivity.
Qed.


